(** * news-llm: the queue-mediated summarisation pipeline, embedded and verified

    A shallow embedding of the Python package [newsllm] and the properties of
    its specification, stated over that embedding.

    Conventions of the embedding.
    - A Python [str] is the list of its code points ([list N]); the literals
      of the source are written [py "..."].
    - A call that may raise returns a [result]: [Returned v] or [Raised e],
      [e] naming the exception class and carrying its message.
    - Mutable objects (queues, the singleton registry, the logger, the remote
      services) are explicit state threaded through the operations.
    - Library code outside the package (the JSON decoder, [str.lower], the
      hash of a string, the remote model catalogue) is a parameter of the
      section that uses it; concrete instances are given for the examples. *)

From Stdlib Require Import ZArith NArith List String Ascii Bool Lia.
From stdpp Require Import base tactics option list gmap.
Import ListNotations.

Set Default Proof Using "Type".
Set Warnings "-register-all".

(** Comparisons of code points stay folded under [simpl]. *)
#[global] Arguments N.eqb : simpl never.
#[global] Arguments N.leb : simpl never.
#[global] Arguments N.ltb : simpl never.

(* ===================================================================== *)
(** ** Python strings                                                     *)
(* ===================================================================== *)

Module PyStr.

(** A source literal as a list of code points (ASCII literals only). *)
Definition py (s : string) : list N :=
  map N_of_ascii (list_ascii_of_string s).

(** A literal in which the apostrophe stands for the double quote. *)
Definition pyq (s : string) : list N :=
  map (λ c, if (c =? 39)%N then 34%N else c) (py s).

(** [str.isspace] on one code point, which is also what [\s] matches in a
    [str] pattern: the table of [_PyUnicode_IsWhitespace]. *)
Definition isspace (c : N) : bool :=
  ((9 <=? c) && (c <=? 13) || (28 <=? c) && (c <=? 32)
   || (c =? 133) || (c =? 160) || (c =? 5760)
   || (8192 <=? c) && (c <=? 8202)
   || (c =? 8232) || (c =? 8233) || (c =? 8239) || (c =? 8287)
   || (c =? 12288))%N.

(** [s.lstrip()], [s.rstrip()] and [s.strip()] with no argument. *)
Fixpoint lstrip (s : list N) : list N :=
  match s with
  | c :: r => if isspace c then lstrip r else s
  | [] => []
  end.

Definition rstrip (s : list N) : list N := reverse (lstrip (reverse s)).

Definition strip (s : list N) : list N := rstrip (lstrip s).

(** [s.startswith(p)]. *)
Fixpoint startswith (p s : list N) : bool :=
  match p, s with
  | [], _ => true
  | a :: p', b :: s' => (a =? b)%N && startswith p' s'
  | _ :: _, [] => false
  end.

(** The first and last code point of a string are not whitespace. *)
Definition trimmed (s : list N) : Prop :=
  (∀ c, head s = Some c → isspace c = false) ∧
  (∀ c, last s = Some c → isspace c = false).

End PyStr.

(* ===================================================================== *)
(** ** Exceptions and results                                             *)
(* ===================================================================== *)

Module PyExn.

(** The exception classes the package raises or meets.  Every one of them
    derives from [Exception], so an [except Exception] clause catches each. *)
Inductive exn_class : Type :=
| ModelNotFoundError      (* newsllm.services.summarizer.base *)
| RuntimeError
| NotImplementedError
| AttributeError
| TypeError
| ValueError
| JSONDecodeError         (* json.JSONDecodeError, a ValueError *)
| OtherException.

(** An exception instance: its class and message, or tenacity's [RetryError]
    around the exception of the last attempt. *)
Inductive exn : Type :=
| Exception (cls : exn_class) (msg : list N)
| RetryError (last_attempt : exn).

Inductive result (A : Type) : Type :=
| Returned (v : A)
| Raised (e : exn).
Arguments Returned {A} v.
Arguments Raised {A} e.

Definition exn_class_eqb (a b : exn_class) : bool :=
  match a, b with
  | ModelNotFoundError, ModelNotFoundError | RuntimeError, RuntimeError
  | NotImplementedError, NotImplementedError | AttributeError, AttributeError
  | TypeError, TypeError | ValueError, ValueError
  | JSONDecodeError, JSONDecodeError | OtherException, OtherException => true
  | _, _ => false
  end.

(** [isinstance(e, cls)] for the classes above: [JSONDecodeError] is the only
    one with a parent in the list. *)
Definition isinstance (e : exn) (cls : exn_class) : bool :=
  match e with
  | Exception c _ =>
      exn_class_eqb c cls
      || (exn_class_eqb c JSONDecodeError && exn_class_eqb cls ValueError)
  | RetryError _ => false
  end.

End PyExn.

(* ===================================================================== *)
(** ** Summarizer: whitespace normalisation                               *)
(* ===================================================================== *)

Module Normalize.

Import PyStr.

(** *** [re.sub(r"(\s)\1+", r"\1", text)]

    The pattern is tried at the current position: one whitespace code point
    [c] (group 1) followed by one or more copies of it, greedily.  A match is
    replaced by group 1 and the scan resumes after the match; where the
    pattern does not match, the code point is copied and the scan moves one
    position on. *)

(** Greedy [\1*]: drop every leading copy of [c]. *)
Fixpoint skip_same (c : N) (s : list N) : list N :=
  match s with
  | d :: r => if (d =? c)%N then skip_same c r else s
  | [] => []
  end.

(** The pattern [(\s)\1+] at the start of [s]: group 1 and the text after
    the match. *)
Definition match_ws_run (s : list N) : option (N * list N) :=
  match s with
  | c :: d :: r => if isspace c && (d =? c)%N then Some (c, skip_same c r) else None
  | _ => None
  end.

Fixpoint sub_ws_runs_fuel (fuel : nat) (s : list N) : list N :=
  match fuel with
  | O => s
  | S fuel' =>
      match match_ws_run s with
      | Some (c, rest) => c :: sub_ws_runs_fuel fuel' rest
      | None =>
          match s with
          | [] => []
          | c :: r => c :: sub_ws_runs_fuel fuel' r
          end
      end
  end.

(** One unit of fuel per code point is enough (lemma [sub_ws_runs_fuel_enough]). *)
Definition sub_ws_runs (text : list N) : list N :=
  sub_ws_runs_fuel (length text) text.

(** [Summarizer.normalize_text]. *)
Definition normalize_text (text : list N) : list N :=
  strip (sub_ws_runs text).

(** *** The specification's reading

    The text is cut into its maximal runs of one repeated code point; a run
    of two or more copies of a whitespace code point becomes one copy; every
    other run is kept; the result is stripped. *)

Fixpoint runs (s : list N) : list (N * nat) :=
  match s with
  | [] => []
  | c :: r =>
      match runs r with
      | (d, n) :: rs => if (c =? d)%N then (d, S n) :: rs else (c, 1) :: (d, n) :: rs
      | [] => [(c, 1)]
      end
  end.

Definition squeeze (run : N * nat) : list N :=
  if isspace run.1 && (2 <=? run.2) then [run.1] else replicate run.2 run.1.

Definition squeeze_runs (text : list N) : list N :=
  concat (map squeeze (runs text)).

Definition spec_normalize_text (text : list N) : list N :=
  strip (squeeze_runs text).

(** No whitespace code point is immediately followed by a copy of itself. *)
Fixpoint no_repeated_space (s : list N) : bool :=
  match s with
  | c :: r =>
      match r with
      | d :: _ => negb (isspace c && (d =? c)%N) && no_repeated_space r
      | [] => true
      end
  | [] => true
  end.

(** *** A structural form of the substitution, used in the proofs: of two
    adjacent equal whitespace code points the first is dropped. *)
Fixpoint collapse (s : list N) : list N :=
  match s with
  | [] => []
  | c :: r =>
      match r with
      | d :: _ => if isspace c && (d =? c)%N then collapse r else c :: collapse r
      | [] => [c]
      end
  end.

End Normalize.

(* ===================================================================== *)
(** ** JSON values and a decoder                                          *)
(* ===================================================================== *)

Module Json.

Import PyStr PyExn.

(** What [json.loads] returns.  A number keeps its lexeme (Python turns it
    into an [int] or a [float]); an object is a [dict]: its members in the
    order of first insertion, one entry per key. *)
Inductive json : Type :=
| JNull
| JBool (b : bool)
| JNum (lexeme : list N)
| JStr (s : list N)
| JArr (items : list json)
| JObj (members : list (list N * json)).

(** The empty [dict], [{}]. *)
Definition empty_dict : json := JObj [].

Definition str_eqb (a b : list N) : bool := bool_decide (a = b).

(** [d[k] = v] on the members of a dict. *)
Fixpoint dict_set (k : list N) (v : json) (d : list (list N * json))
  : list (list N * json) :=
  match d with
  | [] => [(k, v)]
  | (k', v') :: d' =>
      if str_eqb k' k then (k', v) :: d' else (k', v') :: dict_set k v d'
  end.

(** *** A decoder for the examples

    The theorems on the summarizer hold for every decoder; the examples need
    one.  This one follows the scanner of Python's [json] package: white space
    is one of space, tab, line feed and carriage return; a string may not
    hold a raw control character; a repeated key keeps its last value.  The
    message of a [JSONDecodeError] is not modelled. *)

Inductive parse (A : Type) : Type :=
| Parsed (v : A) (rest : list N)
| Malformed
| OutOfFuel.
Arguments Parsed {A} v rest.
Arguments Malformed {A}.
Arguments OutOfFuel {A}.

Definition json_space (c : N) : bool :=
  ((c =? 32) || (c =? 9) || (c =? 10) || (c =? 13))%N.

Fixpoint skip_ws (s : list N) : list N :=
  match s with
  | c :: r => if json_space c then skip_ws r else s
  | [] => []
  end.

Definition is_digit (c : N) : bool := ((48 <=? c) && (c <=? 57))%N.

Fixpoint span_digits (s : list N) : list N * list N :=
  match s with
  | c :: r =>
      if is_digit c then let (ds, rest) := span_digits r in (c :: ds, rest)
      else ([], s)
  | [] => ([], [])
  end.

(** The number pattern at the start of [s]: an optional minus sign, then
    either 0 or a digit from 1 to 9 followed by digits; optionally a point
    and one or more digits; optionally e or E, an optional sign and one or
    more digits.  Returns the lexeme and the text after it. *)
Definition scan_number (s : list N) : option (list N * list N) :=
  let (sign, s1) := match s with
                    | 45%N :: r => ([45%N], r)
                    | _ => ([], s)
                    end in
  let int_part :=
    match s1 with
    | 48%N :: r => Some ([48%N], r)
    | d :: r => if is_digit d
                then let (ds, rest) := span_digits r in Some (d :: ds, rest)
                else None
    | [] => None
    end in
  match int_part with
  | None => None
  | Some (ip, s2) =>
      let (frac, s3) :=
        match s2 with
        | 46%N :: r =>
            match span_digits r with
            | ([], _) => ([], s2)
            | (ds, rest) => (46%N :: ds, rest)
            end
        | _ => ([], s2)
        end in
      let (expo, s4) :=
        match s3 with
        | e :: r =>
            if ((e =? 101) || (e =? 69))%N then
              let (sg, r') := match r with
                              | g :: r'' =>
                                  if ((g =? 43) || (g =? 45))%N then ([g], r'')
                                  else ([], r)
                              | [] => ([], r)
                              end in
              match span_digits r' with
              | ([], _) => ([], s3)
              | (ds, rest) => (e :: sg ++ ds, rest)
              end
            else ([], s3)
        | [] => ([], s3)
        end in
      Some (sign ++ ip ++ frac ++ expo, s4)
  end.

Definition hex_value (c : N) : option N :=
  if is_digit c then Some (c - 48)%N
  else if ((97 <=? c) && (c <=? 102))%N then Some (c - 87)%N
  else if ((65 <=? c) && (c <=? 70))%N then Some (c - 55)%N
  else None.

Definition hex4 (a b c d : N) : option N :=
  match hex_value a, hex_value b, hex_value c, hex_value d with
  | Some x, Some y, Some z, Some w => Some (((x * 16 + y) * 16 + z) * 16 + w)%N
  | _, _, _, _ => None
  end.

(** The one-letter escapes of a JSON string. *)
Definition backslash (e : N) : option N :=
  match e with
  | 34%N => Some 34%N | 92%N => Some 92%N | 47%N => Some 47%N
  | 98%N => Some 8%N | 102%N => Some 12%N | 110%N => Some 10%N
  | 114%N => Some 13%N | 116%N => Some 9%N
  | _ => None
  end.

(** The body of a string, after its opening quote. *)
Fixpoint scan_string (s : list N) : option (list N * list N) :=
  match s with
  | [] => None
  | 34%N :: r => Some ([], r)
  | 92%N :: 117%N :: a :: b :: c :: d :: r =>
      match hex4 a b c d with
      | None => None
      | Some uni =>
          let low :=
            match r with
            | 92%N :: 117%N :: a' :: b' :: c' :: d' :: r' =>
                match hex4 a' b' c' d' with
                | Some uni2 =>
                    if ((55296 <=? uni) && (uni <=? 56319)
                        && (56320 <=? uni2) && (uni2 <=? 57343))%N
                    then Some (65536 + ((uni - 55296) * 1024 + (uni2 - 56320)),
                               scan_string r')%N
                    else None
                | None => None
                end
            | _ => None
            end in
          match low with
          | Some (cp, Some (t, rest)) => Some (cp :: t, rest)
          | Some (_, None) => None
          | None =>
              match scan_string r with
              | Some (t, rest) => Some (uni :: t, rest)
              | None => None
              end
          end
      end
  | 92%N :: e :: r =>
      match backslash e with
      | Some c =>
          match scan_string r with
          | Some (t, rest) => Some (c :: t, rest)
          | None => None
          end
      | None => None
      end
  | c :: r =>
      if (c <? 32)%N then None
      else match scan_string r with
           | Some (t, rest) => Some (c :: t, rest)
           | None => None
           end
  end.

Definition literal (word : string) (v : json) (s : list N) : option (parse json) :=
  if startswith (py word) s
  then Some (Parsed v (drop (length (py word)) s))
  else None.

Fixpoint scan_once (fuel : nat) (s : list N) : parse json :=
  match fuel with
  | O => OutOfFuel
  | S fuel' =>
      match s with
      | 34%N :: r =>
          match scan_string r with
          | Some (t, rest) => Parsed (JStr t) rest
          | None => Malformed
          end
      | 123%N :: r =>
          match skip_ws r with
          | 125%N :: rest => Parsed (JObj []) rest
          | r' => scan_members fuel' r' []
          end
      | 91%N :: r =>
          match skip_ws r with
          | 93%N :: rest => Parsed (JArr []) rest
          | r' => scan_items fuel' r' []
          end
      | _ =>
          match literal "null" JNull s with
          | Some p => p
          | None =>
          match literal "true" (JBool true) s with
          | Some p => p
          | None =>
          match literal "false" (JBool false) s with
          | Some p => p
          | None =>
          match scan_number s with
          | Some (lexeme, rest) => Parsed (JNum lexeme) rest
          | None =>
          match literal "NaN" (JNum (py "NaN")) s with
          | Some p => p
          | None =>
          match literal "Infinity" (JNum (py "Infinity")) s with
          | Some p => p
          | None =>
          match literal "-Infinity" (JNum (py "-Infinity")) s with
          | Some p => p
          | None => Malformed
          end end end end end end end
      end
  end

with scan_items (fuel : nat) (s : list N) (acc : list json) : parse json :=
  match fuel with
  | O => OutOfFuel
  | S fuel' =>
      match scan_once fuel' s with
      | Parsed v rest =>
          match skip_ws rest with
          | 44%N :: r => scan_items fuel' (skip_ws r) (acc ++ [v])
          | 93%N :: r => Parsed (JArr (acc ++ [v])) r
          | _ => Malformed
          end
      | Malformed => Malformed
      | OutOfFuel => OutOfFuel
      end
  end

with scan_members (fuel : nat) (s : list N) (acc : list (list N * json))
  : parse json :=
  match fuel with
  | O => OutOfFuel
  | S fuel' =>
      match s with
      | 34%N :: r =>
          match scan_string r with
          | Some (key, rest) =>
              match skip_ws rest with
              | 58%N :: r1 =>
                  match scan_once fuel' (skip_ws r1) with
                  | Parsed v rest1 =>
                      match skip_ws rest1 with
                      | 44%N :: r2 => scan_members fuel' (skip_ws r2) (dict_set key v acc)
                      | 125%N :: r2 => Parsed (JObj (dict_set key v acc)) r2
                      | _ => Malformed
                      end
                  | Malformed => Malformed
                  | OutOfFuel => OutOfFuel
                  end
              | _ => Malformed
              end
          | None => Malformed
          end
      | _ => Malformed
      end
  end.

(** [json.loads(s)] for a [str]: one value between optional white space.
    Running out of fuel stands for Python's [RecursionError]. *)
Definition json_loads (s : list N) : result json :=
  match scan_once (2 * length s + 2) (skip_ws s) with
  | Parsed v rest =>
      match skip_ws rest with
      | [] => Returned v
      | _ :: _ => Raised (Exception JSONDecodeError [])
      end
  | Malformed => Raised (Exception JSONDecodeError [])
  | OutOfFuel => Raised (Exception OtherException (py "RecursionError"))
  end.

End Json.

(* ===================================================================== *)
(** ** Summarizer: extraction of the fenced payload and parsing           *)
(* ===================================================================== *)

Module Summarizer.

Import PyStr PyExn Json Normalize.

(** The three backticks of a fence and the tag [json], as code points. *)
Definition fence : list N := [96; 96; 96]%N.

Definition json_tag : list N := [106; 115; 111; 110]%N.

(** The lazy [(.*?)] followed by a fence: the text before the first fence of
    [s] and the text after it. *)
Fixpoint find_fence (s : list N) : option (list N * list N) :=
  match s with
  | [] => None
  | c :: r =>
      if startswith fence s then Some ([], drop 3 s)
      else match find_fence r with
           | Some (a, b) => Some (c :: a, b)
           | None => None
           end
  end.

(** A match object of the pattern: groups 1 and 2, [None] for the group of
    the alternative that did not take part. *)
Record re_match : Type := { group1 : option (list N); group2 : option (list N) }.

(** The pattern of [extract_json], with [re.DOTALL], tried at the start of
    [s]: first the alternative with the tag, then the one without. *)
Definition match_here (s : list N) : option re_match :=
  match (if startswith (fence ++ json_tag) s then find_fence (drop 7 s) else None) with
  | Some (body, _) => Some {| group1 := Some body; group2 := None |}
  | None =>
      match (if startswith fence s then find_fence (drop 3 s) else None) with
      | Some (body, _) => Some {| group1 := None; group2 := Some body |}
      | None => None
      end
  end.

(** [pattern.search(text)]: the match at the leftmost position that has one. *)
Fixpoint re_search (s : list N) : option re_match :=
  match match_here s with
  | Some m => Some m
  | None =>
      match s with
      | [] => None
      | _ :: r => re_search r
      end
  end.

(** [Summarizer.extract_json].  A group is false when it is [None] or empty;
    [.strip()] on a [None] group raises [AttributeError]. *)
Definition extract_json (text : list N) : result (option (list N)) :=
  match re_search text with
  | Some m =>
      match group1 m with
      | Some (c :: g) => Returned (Some (strip (c :: g)))
      | _ =>
          match group2 m with
          | Some g => Returned (Some (strip g))
          | None => Raised (Exception AttributeError
                              (py "'NoneType' object has no attribute 'strip'"))
          end
      end
  | None => Returned None
  end.

Section Summarize.

(** [json.loads], and the provider's [call] as a function of the model and
    the prompt ([None] when the completion has no content). *)
Variable json_loads : list N → result json.
Variable provider_call : list N → list N → result (option (list N)).

(** [Summarizer.load_json]: only [json.JSONDecodeError] is caught. *)
Definition load_json (text : list N) : result json :=
  match json_loads text with
  | Returned v => Returned v
  | Raised e =>
      if isinstance e JSONDecodeError then Returned empty_dict else Raised e
  end.

(** The [try] block of [Summarizer.summarize], from the outcome of the
    provider's call on.  [re.sub] raises [TypeError] on [None]. *)
Definition summarize_response (response : result (option (list N))) : result json :=
  match response with
  | Raised e => Raised e
  | Returned None =>
      Raised (Exception TypeError (py "expected string or bytes-like object"))
  | Returned (Some summary) =>
      let summary_data := normalize_text summary in
      match extract_json summary_data with
      | Raised e => Raised e
      | Returned (Some (c :: d)) => load_json (c :: d)
      | Returned _ => Returned empty_dict
      end
  end.

(** [Summarizer.summarize]: [except Exception] turns every failure of the
    block into the empty dict.  The calls to the logger are left out. *)
Definition summarize (model text_content : list N) : result json :=
  match summarize_response (provider_call model text_content) with
  | Returned v => Returned v
  | Raised _ => Returned empty_dict
  end.

End Summarize.

(** *** The fenced block the pattern finds

    [fenced_body s] is the text between the first fence of [s] and the next
    fence after it; [payload_of_body] is what [extract_json] makes of it. *)
Definition fenced_body (s : list N) : option (list N) :=
  match find_fence s with
  | Some (_, r) =>
      match find_fence r with
      | Some (b, _) => Some b
      | None => None
      end
  | None => None
  end.

Definition groups_of_body (b : list N) : re_match :=
  if startswith json_tag b
  then {| group1 := Some (drop 4 b); group2 := None |}
  else {| group1 := None; group2 := Some b |}.

(** A run of two or more copies of one whitespace code point occurs in [s]. *)
Definition has_space_run (s : list N) : Prop :=
  ∃ a c b, s = a ++ c :: c :: b ∧ isspace c = true.

(** No fence begins inside [a], not even one completed by the fence that
    follows [a]. *)
Definition fence_free (a : list N) : Prop :=
  find_fence (a ++ [96; 96]%N) = None.

Definition nonspace (p : list N) : Prop := Forall (λ c, isspace c = false) p.

(** What [extract_json] makes of the fenced body it finds. *)
Definition payload_of_body (b : list N) : result (option (list N)) :=
  if startswith json_tag b then
    match drop 4 b with
    | [] => Raised (Exception AttributeError
                      (py "'NoneType' object has no attribute 'strip'"))
    | g => Returned (Some (strip g))
    end
  else Returned (Some (strip b)).

(** *** From the response to the result *)

(** What [summarize] makes of the payload it extracted: an empty payload is
    not parsed; a payload the decoder rejects, with whatever exception,
    gives the empty dict. *)
Definition parse_payload (json_loads : list N → result json) (q : list N) : json :=
  match q with
  | [] => empty_dict
  | _ :: _ =>
      match load_json json_loads q with
      | Returned v => v
      | Raised _ => empty_dict
      end
  end.

(** The body and the result of the specification's example. *)
Definition sample_body : list N := pyq "{'summary':'S','tags':['t1','t2']}".

Definition sample_mapping : json :=
  JObj [(py "summary", JStr (py "S"));
        (py "tags", JArr [JStr (py "t1"); JStr (py "t2")])].

(** A response with an untagged fenced block before the tagged one. *)
Definition earlier_block_response : list N :=
  py "```text``` " ++ fence ++ json_tag ++ sample_body ++ fence.

(** A response whose summary holds two spaces in a row. *)
Definition padded_payload : list N := pyq "{'summary':'a  b','tags':[]}".

Definition padded_response : list N :=
  py "Here it is: " ++ fence ++ json_tag ++ padded_payload ++ fence.

End Summarizer.

(* ===================================================================== *)
(** ** structures.py: the News record                                     *)
(* ===================================================================== *)

Module Structures.

Import PyStr Json.

(** The fields of [News]; an optional field is an [option], the metadata a
    list of key and value pairs. *)
Record News : Type := {
  title : list N;
  raw_content : list N;
  url : list N;
  id : list N;
  source : list N;
  scraped_at : list N;
  published_date : option (list N);
  author : option (list N);
  categories : list (list N);
  tags : list (list N);
  description : option (list N);
  text_content : list N;
  summary : option (list N);
  metadata : list (list N * json)
}.

(** [News.__eq__]. *)
Definition News_eq (self other : News) : bool :=
  str_eqb (id self) (id other) && str_eqb (source self) (source other).

(** The string hashed by [News.__hash__], the f-string of id, a dash and
    source. *)
Definition hash_key (self : News) : list N :=
  id self ++ py "-" ++ source self.

Section Hash.

(** Python's [hash] on strings. *)
Variable hash : list N → Z.

(** [News.__hash__]. *)
Definition News_hash (self : News) : Z := hash (hash_key self).

End Hash.

(** A record with the given identity and content, the other fields at
    their defaults. *)
Definition news (i s content : list N) : News :=
  {| title := content; raw_content := content; url := py "https://example.org/";
     id := i; source := s; scraped_at := []; published_date := None;
     author := None; categories := []; tags := []; description := Some [];
     text_content := content; summary := None; metadata := [] |}.

End Structures.

(* ===================================================================== *)
(** ** services/queue: the two backends                                   *)
(* ===================================================================== *)

Module Queue.

Import PyStr.

Section Items.

(** The items of a queue.  What the Redis client does to an item on the
    wire (it is stored and returned as bytes) is not modelled, and the
    calls to the logger are left out. *)
Context {A : Type}.

(** *** Generators

    A generator is its state and the step [next]: [None] is [StopIteration].
    [drain] is [list(generator)]; it has a result when the generator stops
    within the fuel. *)
Fixpoint drain {St X : Type} (next : St → option (X * St)) (fuel : nat) (s : St)
  : option (list X * St) :=
  match fuel with
  | O => None
  | S fuel' =>
      match next s with
      | None => Some ([], s)
      | Some (x, s') =>
          match drain next fuel' s' with
          | Some (xs, s'') => Some (x :: xs, s'')
          | None => None
          end
      end
  end.

(** *** [ListQueue]: a [deque], its left end first *)

Record ListQueue : Type := { queue_name : list N; queue : list A }.

(** [ListQueue(queue_name)]. *)
Definition ListQueue_init (name : list N) : ListQueue :=
  {| queue_name := name; queue := [] |}.

(** [enqueue]: [self.queue.append(item)]. *)
Definition enqueue (self : ListQueue) (item : A) : ListQueue :=
  {| queue_name := queue_name self; queue := queue self ++ [item] |}.

(** [dequeue]: [None] on an empty queue, else [self.queue.popleft()]. *)
Definition dequeue (self : ListQueue) : option A * ListQueue :=
  match queue self with
  | [] => (None, self)
  | item :: rest => (Some item, {| queue_name := queue_name self; queue := rest |})
  end.

(** One step of [dequeue_generator]: while the queue is not empty, yield
    what [dequeue] returns. *)
Definition dequeue_generator_next (self : ListQueue) : option (option A * ListQueue) :=
  match queue self with
  | [] => None
  | _ :: _ => Some (dequeue self)
  end.

Definition size (self : ListQueue) : nat := length (queue self).

Definition clear (self : ListQueue) : ListQueue :=
  {| queue_name := queue_name self; queue := [] |}.

(** *** The Redis server: a list per key, its head on the left *)

Definition lpush (key : list N) (v : A) (db : gmap (list N) (list A))
  : gmap (list N) (list A) :=
  <[key := v :: default [] (db !! key)]> db.

(** A key whose list becomes empty is removed. *)
Definition store (key : list N) (l : list A) (db : gmap (list N) (list A))
  : gmap (list N) (list A) :=
  match l with
  | [] => delete key db
  | _ :: _ => <[key := l]> db
  end.

Definition lpop (key : list N) (db : gmap (list N) (list A))
  : option A * gmap (list N) (list A) :=
  match db !! key with
  | Some (v :: l) => (Some v, store key l db)
  | _ => (None, db)
  end.

Definition rpop (key : list N) (db : gmap (list N) (list A))
  : option A * gmap (list N) (list A) :=
  match db !! key with
  | Some (v :: l) => (last (v :: l), store key (removelast (v :: l)) db)
  | _ => (None, db)
  end.

Definition llen (key : list N) (db : gmap (list N) (list A)) : nat :=
  length (default [] (db !! key)).

(** *** [RedisQueue]: the queue named [name] on the server [db] *)

(** [enqueue]: [self.client.lpush(self.queue_name, item)]. *)
Definition redis_enqueue (name : list N) (db : gmap (list N) (list A)) (item : A)
  : gmap (list N) (list A) :=
  lpush name item db.

(** [dequeue]: [self.client.rpop(self.queue_name)]. *)
Definition redis_dequeue (name : list N) (db : gmap (list N) (list A))
  : option A * gmap (list N) (list A) :=
  rpop name db.

(** One step of [dequeue_generator]: [self.client.lpop(self.queue_name)],
    stopping on [None]. *)
Definition redis_dequeue_generator_next (name : list N) (db : gmap (list N) (list A))
  : option (A * gmap (list N) (list A)) :=
  match lpop name db with
  | (Some item, db') => Some (item, db')
  | (None, _) => None
  end.

Definition redis_size (name : list N) (db : gmap (list N) (list A)) : nat :=
  llen name db.

Definition redis_clear (name : list N) (db : gmap (list N) (list A))
  : gmap (list N) (list A) :=
  delete name db.

(** *** Sequences of calls *)

(** [dequeue] called [n] times: the results, in order, and the queue left. *)
Fixpoint dequeue_n (n : nat) (self : ListQueue) : list (option A) * ListQueue :=
  match n with
  | O => ([], self)
  | S n' =>
      let (r, self') := dequeue self in
      let (rs, self'') := dequeue_n n' self' in
      (r :: rs, self'')
  end.

Fixpoint redis_dequeue_n (n : nat) (name : list N) (db : gmap (list N) (list A))
  : list (option A) * gmap (list N) (list A) :=
  match n with
  | O => ([], db)
  | S n' =>
      let (r, db') := redis_dequeue name db in
      let (rs, db'') := redis_dequeue_n n' name db' in
      (r :: rs, db'')
  end.

End Items.

End Queue.

(* ===================================================================== *)
(** ** services/utils.py: the singleton metaclass                         *)
(* ===================================================================== *)

Module Singleton.

Import PyStr PyExn.

(** The classes built with [SingletonMetaBase]. *)
Inductive queue_class : Type := ListQueue | RedisQueue.

#[global] Instance queue_class_eq_dec : EqDecision queue_class.
Proof. solve_decision. Defined.

#[global] Instance queue_class_countable : Countable queue_class.
Proof.
  refine (inj_countable'
            (λ c, match c with ListQueue => 0 | RedisQueue => 1 end)
            (λ n, match n with 0 => ListQueue | _ => RedisQueue end) _).
  by intros [].
Defined.

(** The positional and the keyword arguments of a call of the class. *)
Record call_args : Type := {
  args : list (list N);
  kwargs : gmap (list N) (list N)
}.

(** An object is known by its identity, the number of objects made before
    it.  [instances] is the class attribute [SingletonMeta._instances]. *)
Record registry : Type := {
  instances : gmap (queue_class * list N) nat;
  allocated : nat
}.

Definition empty_registry : registry := {| instances := ∅; allocated := 0 |}.

(** The first positional argument if there is one, else the keyword
    argument [queue_name], else the empty string. *)
Definition singleton_key (a : call_args) : list N :=
  match args a with
  | k :: _ => k
  | [] => default [] (kwargs a !! py "queue_name")
  end.

Section Call.

(** The outcome of [type.__call__], that is of the class's [__init__]:
    [None] when it returns, the exception when it raises. *)
Variable init : queue_class → call_args → option exn.

(** [SingletonMeta.__call__]. *)
Definition call (cls : queue_class) (a : call_args) (st : registry)
  : result nat * registry :=
  let key := singleton_key a in
  match instances st !! (cls, key) with
  | Some instance => (Returned instance, st)
  | None =>
      match init cls a with
      | Some e => (Raised e, st)
      | None =>
          let instance := allocated st in
          (Returned instance,
           {| instances := <[(cls, key) := instance]> (instances st);
              allocated := S (allocated st) |})
      end
  end.

(** The registries a process can be in: the empty one, and those reached
    from it by calls. *)
Inductive reachable : registry → Prop :=
| reachable_empty : reachable empty_registry
| reachable_call (cls : queue_class) (a : call_args) (st : registry) :
    reachable st → reachable (call cls a st).2.

(** Every registered object was allocated, and no object is registered
    under two keys. *)
Definition well_formed (st : registry) : Prop :=
  (∀ k r, instances st !! k = Some r → r < allocated st)
  ∧ (∀ k k' r, instances st !! k = Some r → instances st !! k' = Some r → k = k').

End Call.

End Singleton.

(* ===================================================================== *)
(** ** services/channel: the channel classes                              *)
(* ===================================================================== *)

Module Channel.

Import PyStr PyExn Structures.

Section Classes.

(** What a [send] returns (a [requests.Response] for Slack). *)
Context {response : Type}.

(** A method body: [abstract] marks an [@abstractmethod]. *)
Record method (T : Type) : Type := { abstract : bool; body : T }.
Arguments abstract {T} m.
Arguments body {T} m.

(** A class: its base, and the methods its own body defines. *)
Inductive py_class : Type :=
| Class (name : list N) (base : option py_class)
        (own_send : option (method (News → result response)))
        (own_receive : option (method (result (list N)))).

(** Attribute lookup along the bases. *)
Fixpoint resolve_send (c : py_class) : option (method (News → result response)) :=
  match c with
  | Class _ base own _ =>
      match own with
      | Some m => Some m
      | None =>
          match base with
          | Some b => resolve_send b
          | None => None
          end
      end
  end.

Fixpoint resolve_receive (c : py_class) : option (method (result (list N))) :=
  match c with
  | Class _ base _ own =>
      match own with
      | Some m => Some m
      | None =>
          match base with
          | Some b => resolve_receive b
          | None => None
          end
      end
  end.

(** [ABC]: a class can be instantiated when none of its methods is still
    abstract. *)
Definition instantiable (c : py_class) : bool :=
  match resolve_send c, resolve_receive c with
  | Some s, Some r => negb (abstract s) && negb (abstract r)
  | _, _ => false
  end.

(** [channel.send(news)] and [channel.receive()] on an instance of [c]. *)
Definition send (c : py_class) (news : News) : result response :=
  match resolve_send c with
  | Some m => body m news
  | None => Raised (Exception AttributeError (py "send"))
  end.

Definition receive (c : py_class) : result (list N) :=
  match resolve_receive c with
  | Some m => body m
  | None => Raised (Exception AttributeError (py "receive"))
  end.

(** The message of both [receive] overrides. *)
Definition direction_error : exn :=
  Exception RuntimeError (py "Dispatch channels cannot receive messages.").

(** base.py: both methods abstract, their bodies raise. *)
Definition BaseChannel : py_class :=
  Class (py "BaseChannel") None
    (Some {| abstract := true;
             body := λ _, Raised (Exception NotImplementedError []) |})
    (Some {| abstract := true;
             body := Raised (Exception NotImplementedError []) |}).

(** dispatch.py: [BaseDispatchChannel] overrides [receive]. *)
Definition BaseDispatchChannel : py_class :=
  Class (py "BaseDispatchChannel") (Some BaseChannel)
    None
    (Some {| abstract := false; body := Raised direction_error |}).

(** inbound.py: [BaseInboundChannel] overrides [receive] too, and nothing
    else. *)
Definition BaseInboundChannel : py_class :=
  Class (py "BaseInboundChannel") (Some BaseChannel)
    None
    (Some {| abstract := false; body := Raised direction_error |}).

(** A class that derives from [parent] and defines [send] only, as
    [SlackDispatchChannel] does from [BaseDispatchChannel]. *)
Definition subclass_with_send (name : list N) (parent : py_class)
    (f : News → result response) : py_class :=
  Class name (Some parent) (Some {| abstract := false; body := f |}) None.

(** [SlackDispatchChannel.send], given what formatting and posting the
    message do: [send_message] raises [ValueError] without a webhook URL. *)
Definition SlackDispatchChannel (webhook_url : list N)
    (post : list N → News → result response) : py_class :=
  subclass_with_send (py "SlackDispatchChannel") BaseDispatchChannel
    (λ news,
       match webhook_url with
       | [] => Raised (Exception ValueError
                         (py "Slack webhook URL is required to send message to Slack."))
       | _ :: _ => post webhook_url news
       end).

End Classes.

End Channel.

(* ===================================================================== *)
(** ** Calls that change a state and may raise                            *)
(* ===================================================================== *)

Module Effects.

Import PyExn.

(** A computation over the state [S]: the state after it, with the value it
    returns or the exception it raises. *)
Definition M (S A : Type) : Type := S → result A * S.

Definition ret {S A : Type} (v : A) : M S A := λ s, (Returned v, s).

Definition raise {S A : Type} (e : exn) : M S A := λ s, (Raised e, s).

Definition bind {S A B : Type} (m : M S A) (k : A → M S B) : M S B :=
  λ s, match m s with
       | (Returned v, s') => k v s'
       | (Raised e, s') => (Raised e, s')
       end.

(** The outcome of a call that does not touch the state. *)
Definition lift {S A : Type} (r : result A) : M S A := λ s, (r, s).

Definition modify {S : Type} (f : S → S) : M S unit := λ s, (Returned tt, f s).

(** [try: body  except Exception as e: handler e]. *)
Definition try_except {S A : Type} (body : M S A) (handler : exn → M S A) : M S A :=
  λ s, match body s with
       | (Returned v, s') => (Returned v, s')
       | (Raised e, s') => handler e s'
       end.

#[global] Instance M_ret (S : Type) : MRet (M S) := λ A, ret.
#[global] Instance M_bind (S : Type) : MBind (M S) := λ A B k m, bind m k.

End Effects.

(* ===================================================================== *)
(** ** services/scraper: the wrapper and the orchestrator                 *)
(* ===================================================================== *)

Module Scraper.

Import PyStr PyExn Structures Effects.

(** The records the scraper package writes to the logger, by the line that
    writes them. *)
Inductive log_record : Type :=
| InfoStarting (class_name : list N)
    (* info: Starting the data scraping from <class> *)
| ErrorOccurred (class_name : list N) (e : exn)
    (* error: Error occurred in <class> | <e> *)
| ErrorTraceback (e : exn)
    (* log_traceback: error: Traceback: <the traceback of e> *)
| DebugScraping (scrapers : nat) (limit : option Z)
    (* debug: Scraping news from <n> scrapers with post limit <limit> *)
| DebugScraped (count : nat) (scraper_name : list N)
    (* debug: Scraped <count> news from <name>!!! *)
| DebugTotal (count : nat).
    (* debug: Total scraped news: <count>!!! *)

(** The logger and the queue [llm-queue] of the factory (the debug lines of
    the queue itself are not kept). *)
Record world : Type := {
  log : list log_record;
  queue : @Queue.ListQueue (list N)
}.

Definition write (r : log_record) : M world unit :=
  modify (λ w, {| log := log w ++ [r]; queue := queue w |}).

Definition enqueue (item : list N) : M world unit :=
  modify (λ w, {| log := log w; queue := Queue.enqueue (queue w) item |}).

(** [l[:limit]] for an integer [limit], negative ones counting from the end. *)
Definition slice_to (limit : Z) (l : list News) : list News :=
  if (0 <=? limit)%Z then take (Z.to_nat limit) l
  else take (length l - Z.to_nat (- limit)) l.

Section Scrape.

(** The keyword arguments handed down to the scrapers, and the truth value
    of their entry [verbose] (true when absent). *)
Context {kwargs : Type}.
Variable verbose : kwargs → bool.

(** [News.model_dump_json]. *)
Variable model_dump_json : News → list N.

(** A scraper: its class, its name, and the outcome of its [_scrape]. *)
Record scraper : Type := {
  class_name : list N;
  scraper_name : list N;
  _scrape : kwargs → result (list News)
}.

(** [BaseScraper.scrape]. *)
Definition BaseScraper_scrape (self : scraper) (kw : kwargs) : M world (list News) :=
  (if verbose kw then write (InfoStarting (class_name self)) else mret tt) ;;
  try_except (lift (_scrape self kw))
    (λ e, write (ErrorOccurred (class_name self) e) ;;
          write (ErrorTraceback e) ;;
          mret []).

(** The comprehension that enqueues every kept record. *)
Fixpoint enqueue_each (scraped_news : list News) : M world unit :=
  match scraped_news with
  | [] => mret tt
  | news :: rest => enqueue (model_dump_json news) ;; enqueue_each rest
  end.

(** The loop of [ScraperFactory.scrape] over [self.scrapers]. *)
Fixpoint scrape_loop (scrapers : list scraper) (limit : option Z) (kw : kwargs)
    (news_list : list News) : M world (list News) :=
  match scrapers with
  | [] => mret news_list
  | scraper :: rest =>
      scraped_news ← BaseScraper_scrape scraper kw ;
      write (DebugScraped (length scraped_news) (scraper_name scraper)) ;;
      let scraped_news :=
        match limit with
        | Some k => slice_to k scraped_news
        | None => scraped_news
        end in
      enqueue_each scraped_news ;;
      scrape_loop rest limit kw (news_list ++ scraped_news)
  end.

(** [ScraperFactory.scrape]. *)
Definition ScraperFactory_scrape (scrapers : list scraper) (limit : option Z)
    (kw : kwargs) : M world (list News) :=
  write (DebugScraping (length scrapers) limit) ;;
  news_list ← scrape_loop scrapers limit kw [] ;
  write (DebugTotal (length news_list)) ;;
  mret news_list.

(** *** What a run returns *)

(** The scraper's own logic returned. *)
Definition survives (kw : kwargs) (s : scraper) : bool :=
  match _scrape s kw with Returned _ => true | Raised _ => false end.

(** What the wrapper returns for a scraper, and what is kept of it. *)
Definition results (kw : kwargs) (s : scraper) : list News :=
  match _scrape s kw with Returned l => l | Raised _ => [] end.

Definition kept (limit : option Z) (l : list News) : list News :=
  match limit with Some k => slice_to k l | None => l end.

End Scrape.

(** Two scrapers, the second of which raises: the run returns the records
    of the first, logs the error of the second and enqueues the two dumps. *)
Definition working_scraper : @scraper unit :=
  {| class_name := py "HackerNewsScraper"; scraper_name := py "HackerNews";
     _scrape := λ _, Returned [news (py "1") (py "HackerNews") (py "one");
                               news (py "2") (py "HackerNews") (py "two")] |}.

Definition failing_scraper : @scraper unit :=
  {| class_name := py "TechCrunchScraper"; scraper_name := py "TechCrunch";
     _scrape := λ _, Raised (Exception ValueError (py "boom")) |}.

End Scraper.

(* ===================================================================== *)
(** ** services/summarizer: the providers                                 *)
(* ===================================================================== *)

Module Provider.

Import PyStr PyExn Effects.

(** What reaches the outside: a listing of the catalogue, a generation
    request, and the pause tenacity makes between two attempts. *)
Inductive event : Type :=
| ListModels
| CreateCompletion (model_name user_prompt : list N)
| Sleep.

(** The records [call] writes to the logger. *)
Inductive log_record : Type :=
| ErrorModelNotFound (model_name : list N)   (* error: Model <name> not found. *)
| DebugUsing (model_name : list N)           (* debug: Using <class> with model <name>. *)
| ErrorCall (e : exn)                        (* error: Error: <e> *)
| DebugTimeit.                               (* debug: Provider call: call took <t> seconds *)

Record world : Type := { events : list event; log : list log_record }.

Definition emit (ev : event) : M world unit :=
  modify (λ w, {| events := events w ++ [ev]; log := log w |}).

Definition write (r : log_record) : M world unit :=
  modify (λ w, {| events := events w; log := log w ++ [r] |}).

(** An entry of the catalogue: its attribute [name], if it has one. *)
Record model : Type := { name : option (list N) }.

(** The OpenAI client of a provider, as a stub: what [models.list()]
    answers, and what [chat.completions.create] followed by the reading of
    the first choice's content answers for a model and a user prompt. *)
Record client : Type := {
  models_list : result (list model);
  chat_completions_create : list N → list N → result (option (list N))
}.

(** [s.split(sep)] for a separator of one code point, and [l[-1]]. *)
Fixpoint split (sep : N) (s : list N) : list (list N) :=
  match s with
  | [] => [[]]
  | c :: r =>
      if (c =? sep)%N then [] :: split sep r
      else match split sep r with
           | piece :: pieces => (c :: piece) :: pieces
           | [] => [[c]]
           end
  end.

Definition last_piece (pieces : list (list N)) : list N :=
  default [] (last pieces).

(** tenacity's [retry] with [stop_after_attempt(n)] and the default
    predicate, which retries on every exception: the call is attempted;
    when it raises and this was attempt [n] or later, [RetryError] is raised
    around the exception; otherwise the wait is slept and the call is
    attempted again. *)
Fixpoint retry (stop_after_attempt : nat) (f : M world (option (list N)))
  : M world (option (list N)) :=
  try_except f
    (λ e, match stop_after_attempt with
          | S (S n as remaining) => emit Sleep ;; retry remaining f
          | _ => raise (RetryError e)
          end).

(** [timeit]: the elapsed time is logged when the call returns. *)
Definition timeit (f : M world (option (list N))) : M world (option (list N)) :=
  result ← f ;
  write DebugTimeit ;;
  mret result.

Section BaseLLMProvider.

(** [str.lower]. *)
Variable lower : list N → list N.

(** The provider's [self._client]. *)
Variable self_client : client.

(** The comparison key of a catalogue entry:
    [model.name.split(":")[-1].strip().lower()]. *)
Definition catalogue_key (m : model) : result (list N) :=
  match name m with
  | Some n => Returned (lower (strip (last_piece (split 58 n))))
  | None => Raised (Exception AttributeError (py "name"))
  end.

Fixpoint catalogue_keys (model_list : list model) : result (list (list N)) :=
  match model_list with
  | [] => Returned []
  | m :: rest =>
      match catalogue_key m with
      | Raised e => Raised e
      | Returned k =>
          match catalogue_keys rest with
          | Raised e => Raised e
          | Returned ks => Returned (k :: ks)
          end
      end
  end.

(** [BaseLLMProvider._check_model_exists]. *)
Definition _check_model_exists (model_name : list N) : M world bool :=
  emit ListModels ;;
  model_list ← lift (models_list self_client) ;
  model_list ← lift (catalogue_keys model_list) ;
  mret (bool_decide (lower model_name ∈ model_list)).

Definition model_not_found (model_name : list N) : exn :=
  Exception ModelNotFoundError (py "Model " ++ model_name ++ py " not found.").

(** The body of [BaseLLMProvider.call], under its decorators. *)
Definition call_body (model_name user_prompt : list N) : M world (option (list N)) :=
  found ← _check_model_exists model_name ;
  if negb found then
    write (ErrorModelNotFound model_name) ;;
    raise (model_not_found model_name)
  else
    write (DebugUsing model_name) ;;
    try_except
      (emit (CreateCompletion model_name user_prompt) ;;
       lift (chat_completions_create self_client model_name user_prompt))
      (λ e, write (ErrorCall e) ;; mret (Some [])).

(** [BaseLLMProvider.call]: [timeit] inside [retry] with two attempts. *)
Definition call (model_name user_prompt : list N) : M world (option (list N)) :=
  retry 2 (timeit (call_body model_name user_prompt)).

(** The model is absent from the catalogue [model_list]: every entry has a
    name and no key is the lowered [model_name]. *)
Definition absent (model_name : list N) (model_list : list model) : Prop :=
  ∃ keys, catalogue_keys model_list = Returned keys ∧ lower model_name ∉ keys.

End BaseLLMProvider.

(** *** llm_providers.py: the registry of providers *)

Inductive provider_class : Type := OpenRouterProvider | OpenAIProvider.

(** [ProviderFactory.PROVIDERS]. *)
Definition PROVIDERS : gmap (list N) provider_class :=
  {[ py "openrouter" := OpenRouterProvider; py "openai" := OpenAIProvider ]}.

Definition provider_not_found (provider_name : list N) : exn :=
  Exception ModelNotFoundError (py "Provider " ++ provider_name ++ py " not found.").

(** [ProviderFactory.get_provider]: the class registered under the name. *)
Definition get_provider (provider_name : list N) : result provider_class :=
  match PROVIDERS !! provider_name with
  | Some provider => Returned provider
  | None => Raised (provider_not_found provider_name)
  end.

(** The class of an exception. *)
Definition class_of (e : exn) : option exn_class :=
  match e with
  | Exception cls _ => Some cls
  | RetryError _ => None
  end.

(** [str.lower] on the letters A to Z, and a stub client whose catalogue
    lists two models. *)
Definition ascii_lower (s : list N) : list N :=
  (λ c, if ((65 <=? c) && (c <=? 90))%N then (c + 32)%N else c) <$> s.

Definition stub_client : client :=
  {| models_list := Returned [ {| name := Some (py "Google: Gemini Flash 1.5") |};
                               {| name := Some (py "OpenAI: GPT-4o") |} ];
     chat_completions_create := λ _ _, Returned (Some (py "generated")) |}.

End Provider.

(* ===================================================================== *)
(** ** services/queue: the contract the two backends share                *)
(* ===================================================================== *)

Module QueueOps.

Import PyStr Queue.

Section Ops.

Context {A : Type}.

(** A call of the queue contract, the generator apart, and its answer. *)
Inductive op : Type :=
| Enqueue (item : A)
| Dequeue
| Size
| Clear.

Inductive answer : Type :=
| Nothing
| Item (item : option A)
| Count (n : nat).

(** One call on a [ListQueue]. *)
Definition list_call (o : op) (self : @ListQueue A) : answer * @ListQueue A :=
  match o with
  | Enqueue item => (Nothing, enqueue self item)
  | Dequeue => let (item, self') := dequeue self in (Item item, self')
  | Size => (Count (size self), self)
  | Clear => (Nothing, clear self)
  end.

(** One call on the [RedisQueue] named [name]. *)
Definition redis_call (name : list N) (o : op) (db : gmap (list N) (list A))
  : answer * gmap (list N) (list A) :=
  match o with
  | Enqueue item => (Nothing, redis_enqueue name db item)
  | Dequeue => let (item, db') := redis_dequeue name db in (Item item, db')
  | Size => (Count (redis_size name db), db)
  | Clear => (Nothing, redis_clear name db)
  end.

(** A sequence of calls: the answers, in order, and the state left. *)
Fixpoint list_run (ops : list op) (self : @ListQueue A)
  : list answer * @ListQueue A :=
  match ops with
  | [] => ([], self)
  | o :: rest =>
      let (a, self') := list_call o self in
      let (answers, self'') := list_run rest self' in
      (a :: answers, self'')
  end.

Fixpoint redis_run (name : list N) (ops : list op) (db : gmap (list N) (list A))
  : list answer * gmap (list N) (list A) :=
  match ops with
  | [] => ([], db)
  | o :: rest =>
      let (a, db') := redis_call name o db in
      let (answers, db'') := redis_run name rest db' in
      (a :: answers, db'')
  end.

End Ops.

End QueueOps.

(* ===================================================================== *)
(** ** services/queue/factory.py: the selection of a backend              *)
(* ===================================================================== *)

Module QueueFactory.

Import PyStr PyExn Singleton.

Section Factory.

(** The table [QUEUE_CLASSES], from the type of a queue to its class; the
    value of the environment variable [REDIS_QUEUE_URL], if set; and the
    outcome of a constructor, as for [Singleton.call]. *)
Variable QUEUE_CLASSES : gmap (list N) queue_class.
Variable REDIS_QUEUE_URL : option (list N).
Variable init : queue_class → call_args → option exn.

(** [get_queue].  An unset or empty URL is false. *)
Definition get_queue (queue_name queue_type : list N) (st : registry)
  : result nat * registry :=
  match QUEUE_CLASSES !! queue_type with
  | None =>
      (Raised (Exception ValueError (py "Unsupported queue type: " ++ queue_type)), st)
  | Some QueueClass =>
      if bool_decide (queue_type = py "redis") then
        match REDIS_QUEUE_URL with
        | Some (c :: u) =>
            call init QueueClass
              {| args := [];
                 kwargs := {[ py "queue_name" := queue_name; py "url" := c :: u ]} |}
              st
        | _ =>
            (Raised (Exception ValueError
                       (py "REDIS_QUEUE_URL environment variable not set")), st)
        end
      else
        call init QueueClass
          {| args := []; kwargs := {[ py "queue_name" := queue_name ]} |} st
  end.

End Factory.

(** The calls that follow one another on a registry. *)
Fixpoint run_calls (init : queue_class → call_args → option exn)
    (calls : list (queue_class * call_args)) (st : registry) : registry :=
  match calls with
  | [] => st
  | (cls, a) :: rest => run_calls init rest (call init cls a st).2
  end.

End QueueFactory.

(* ===================================================================== *)
(** ** services/channel/dispatch.py: the Slack channel                    *)
(* ===================================================================== *)

Module Dispatch.

Import PyStr PyExn Json Structures Effects.

(** [sep.join(pieces)]. *)
Fixpoint join (sep : list N) (pieces : list (list N)) : list N :=
  match pieces with
  | [] => []
  | piece :: rest =>
      match rest with
      | [] => piece
      | _ :: _ => piece ++ sep ++ join sep rest
      end
  end.

(** The summary as a quotation: every line of it after a [>]. *)
Definition summary_blockquote (summary : list N) : list N :=
  join [10%N] ((λ line, py ">" ++ line) <$> Provider.split 10 summary).

(** [str(x)] for an optional string. *)
Definition str_of_optional (x : option (list N)) : list N :=
  match x with
  | Some s => s
  | None => py "None"
  end.

Definition mrkdwn (text : list N) : json :=
  JObj [(py "type", JStr (py "mrkdwn")); (py "text", JStr text)].

Definition section_block (text : list N) : json :=
  JObj [(py "type", JStr (py "section")); (py "text", mrkdwn text)].

(** [SlackDispatchChannel.format_message]: [split] on a summary that is
    [None] raises [AttributeError]. *)
Definition format_message (news : News) : result (list json) :=
  match summary news with
  | None =>
      Raised (Exception AttributeError
                (py "'NoneType' object has no attribute 'split'"))
  | Some text =>
      Returned
        [ JObj [(py "type", JStr (py "header"));
                (py "text", JObj [(py "type", JStr (py "plain_text"));
                                  (py "text", JStr (title news))])];
          JObj [(py "type", JStr (py "context"));
                (py "elements",
                 JArr [mrkdwn (py "*Source:* " ++ source news ++ [10%N]
                               ++ py "*Date Published:* "
                               ++ str_of_optional (published_date news)
                               ++ [10%N])])];
          section_block (py "*Tags:* _" ++ join (py ", ") (tags news)
                         ++ py "_" ++ [10%N]);
          section_block (py "*Summary*" ++ [10%N] ++ summary_blockquote text);
          section_block (py "*URL:* <" ++ url news ++ py ">" ++ [10%N]) ]
  end.

(** What leaves the process, and the records written to the logger. *)
Inductive event : Type :=
| Post (url data : list N).

Inductive log_record : Type :=
| DebugSending     (* debug: Sending message to Slack *)
| InfoSent.        (* info: Slack message sent with status code ... *)

Record world : Type := { events : list event; log : list log_record }.

Definition emit (ev : event) : M world unit :=
  modify (λ w, {| events := events w ++ [ev]; log := log w |}).

Definition write (r : log_record) : M world unit :=
  modify (λ w, {| events := events w; log := log w ++ [r] |}).

Section Slack.

(** The answer of the webhook, [json.dumps], what [requests.post] does with
    a URL and a body, and [self.webhook_url] ([None] when not configured). *)
Context {response : Type}.
Variable json_dumps : json → list N.
Variable requests_post : list N → list N → result response.
Variable webhook_url : option (list N).

Definition payload_of (message : list json) : json :=
  JObj [(py "text", JStr (py "News Update")); (py "blocks", JArr message)].

(** [SlackDispatchChannel.send_message]. *)
Definition send_message (message : list json) : M world response :=
  write DebugSending ;;
  match webhook_url with
  | Some (c :: u) =>
      emit (Post (c :: u) (json_dumps (payload_of message))) ;;
      response ← lift (requests_post (c :: u) (json_dumps (payload_of message))) ;
      write InfoSent ;;
      mret response
  | _ =>
      raise (Exception ValueError
               (py "Slack webhook URL is required to send message to Slack."))
  end.

(** [SlackDispatchChannel.send]. *)
Definition send (news : News) : M world response :=
  message ← lift (format_message news) ;
  send_message message.

End Slack.

End Dispatch.

(* ===================================================================== *)
(** ** services/scraper: the posts of one scraper                         *)
(* ===================================================================== *)

Module ScraperItems.

Import PyStr PyExn Structures Effects.

(** The records [_get_standard_data_list] writes for a post that fails. *)
Inductive log_record : Type :=
| ErrorOnPost (class_name : list N)
    (* error: Error on getting single post from <class>, or
              Error on processing post in <class> *)
| ErrorText (e : exn)          (* error: Error: <e> *)
| ErrorTraceback (e : exn).    (* log_traceback *)

(** The logger, and the number of times the loop has read the clock. *)
Record world : Type := { log : list log_record; clock : nat }.

Definition write (r : log_record) : M world unit :=
  modify (λ w, {| log := log w ++ [r]; clock := clock w |}).



Section Items.

(** The posts of a site; the class and the name of the scraper; the outcome
    of [_get_single_post] on a post; and the string of [datetime.now()] at
    each reading of the clock. *)
Context {post : Type}.
Variable class_name scraper_name : list N.
Variable _get_single_post : post → result News.
Variable now : nat → list N.






End Items.

End ScraperItems.

(* ===================================================================== *)
(** * The properties                                                      *)
(* ===================================================================== *)

Module PyStrProofs.
Import PyStr.

(** *** Facts about stripping *)

Lemma lstrip_app_nonspace (a : list N) (x : N) (b : list N) :
  isspace x = false →
  lstrip (a ++ x :: b) = lstrip (a ++ [x]) ++ b.
Proof.
  intros Hx. induction a as [|c a IH]; simpl.
  - by rewrite Hx.
  - destruct (isspace c); [exact IH|]. simpl. by rewrite <- app_assoc.
Qed.

Lemma lstrip_split (s : list N) :
  ∃ l, s = l ++ lstrip s ∧ Forall (λ c, isspace c = true) l.
Proof.
  induction s as [|c s [l [Hl Hall]]]; simpl.
  - by exists [].
  - destruct (isspace c) eqn:Hc.
    + exists (c :: l). split; [simpl; by rewrite <- Hl | by constructor].
    + by exists [].
Qed.

Lemma lstrip_head (s : list N) (c : N) :
  head (lstrip s) = Some c → isspace c = false.
Proof.
  induction s as [|d s IH]; simpl; [done|].
  destruct (isspace d) eqn:Hd; [exact IH|].
  simpl. by intros [= <-].
Qed.

Lemma lstrip_all_space (s : list N) :
  Forall (λ c, isspace c = true) s → lstrip s = [].
Proof. induction 1 as [|c s Hc _ IH]; simpl; [done|]. by rewrite Hc. Qed.

Lemma lstrip_space_app (l s : list N) :
  Forall (λ c, isspace c = true) l → lstrip (l ++ s) = lstrip s.
Proof. induction 1 as [|c l Hc _ IH]; simpl; [done|]. by rewrite Hc. Qed.

Lemma lstrip_nonspace (x : N) (s : list N) :
  isspace x = false → lstrip (x :: s) = x :: s.
Proof. intros Hx. simpl. by rewrite Hx. Qed.

Lemma lstrip_snoc_nonspace (l : list N) (x : N) :
  isspace x = false → lstrip (l ++ [x]) = lstrip l ++ [x].
Proof.
  intros Hx. induction l as [|c l IH]; simpl.
  - by rewrite Hx.
  - by destruct (isspace c).
Qed.

Lemma rstrip_cons_nonspace (x : N) (b : list N) :
  isspace x = false → rstrip (x :: b) = x :: rstrip b.
Proof.
  intros Hx. unfold rstrip.
  by rewrite reverse_cons, lstrip_snoc_nonspace, reverse_app.
Qed.

Lemma rstrip_app_nonspace (a : list N) (x : N) (b : list N) :
  isspace x = false →
  rstrip (a ++ x :: b) = a ++ x :: rstrip b.
Proof.
  intros Hx. unfold rstrip.
  rewrite reverse_app, reverse_cons, <- app_assoc. simpl.
  rewrite lstrip_app_nonspace, lstrip_snoc_nonspace by done.
  by rewrite !reverse_app, reverse_involutive.
Qed.

Lemma rstrip_split (s : list N) :
  ∃ r, s = rstrip s ++ r ∧ Forall (λ c, isspace c = true) r.
Proof.
  destruct (lstrip_split (reverse s)) as [l [Hl Hall]].
  exists (reverse l). split.
  - unfold rstrip. by rewrite <- reverse_app, <- Hl, reverse_involutive.
  - by apply Forall_reverse.
Qed.

Lemma rstrip_last (s : list N) (c : N) :
  last (rstrip s) = Some c → isspace c = false.
Proof.
  unfold rstrip. rewrite last_reverse. apply lstrip_head.
Qed.

Lemma rstrip_space_app (s r : list N) :
  Forall (λ c, isspace c = true) r → rstrip (s ++ r) = rstrip s.
Proof.
  intros Hr. unfold rstrip. rewrite reverse_app.
  rewrite lstrip_space_app; [done|]. by apply Forall_reverse.
Qed.

Lemma rstrip_head (s : list N) (c : N) :
  (∀ d, head s = Some d → isspace d = false) →
  head (rstrip s) = Some c → isspace c = false.
Proof.
  intros Hs Hc. destruct (rstrip_split s) as [r [Hr _]].
  destruct (rstrip s) as [|d t] eqn:Ht; [done|].
  simpl in Hc. injection Hc as ->. apply Hs. by rewrite Hr.
Qed.

Lemma strip_trimmed (s : list N) : trimmed (strip s).
Proof.
  split; intros c Hc.
  - unfold strip in Hc. eapply rstrip_head; [|exact Hc].
    intros d. apply lstrip_head.
  - unfold strip in Hc. by eapply rstrip_last.
Qed.

Lemma strip_split (s : list N) :
  ∃ l r, s = l ++ strip s ++ r ∧
         Forall (λ c, isspace c = true) l ∧ Forall (λ c, isspace c = true) r.
Proof.
  destruct (lstrip_split s) as [l [Hl Hall]].
  destruct (rstrip_split (lstrip s)) as [r [Hr Halr]].
  exists l, r. split; [|done]. unfold strip. by rewrite <- Hr.
Qed.

End PyStrProofs.

Module NormalizeProofs.
Import PyStr Normalize PyStrProofs.

Lemma skip_same_length (c : N) (s : list N) : length (skip_same c s) ≤ length s.
Proof.
  induction s as [|d s IH]; simpl; [lia|].
  destruct (d =? c)%N; simpl; lia.
Qed.

Lemma collapse_skip_same (c : N) (r : list N) :
  isspace c = true → collapse (c :: r) = c :: collapse (skip_same c r).
Proof.
  intros Hc. induction r as [|d r IH]; [done|].
  change (collapse (c :: d :: r))
    with (if isspace c && (d =? c)%N then collapse (d :: r) else c :: collapse (d :: r)).
  simpl skip_same. destruct (d =? c)%N eqn:Hd.
  - apply N.eqb_eq in Hd. subst d. by rewrite IH, Hc.
  - by rewrite andb_false_r.
Qed.

Lemma sub_ws_runs_fuel_collapse (fuel : nat) (s : list N) :
  length s ≤ fuel → sub_ws_runs_fuel fuel s = collapse s.
Proof.
  revert s. induction fuel as [|fuel IH]; intros s Hlen.
  - destruct s; [done | simpl in Hlen; lia].
  - destruct s as [|c [|d r]]; [done | |].
    + simpl. rewrite IH; [done | simpl; lia].
    + change (collapse (c :: d :: r))
        with (if isspace c && (d =? c)%N then collapse (d :: r) else c :: collapse (d :: r)).
      simpl sub_ws_runs_fuel.
      destruct (isspace c && (d =? c)%N) eqn:Hm.
      * apply andb_true_iff in Hm as [Hc Hd]. apply N.eqb_eq in Hd. subst d.
        rewrite (collapse_skip_same c r Hc). f_equal. apply IH.
        pose proof (skip_same_length c r). simpl in Hlen. lia.
      * f_equal. apply IH. simpl in *. lia.
Qed.

(** Fuel beyond the length of the text changes nothing. *)
Lemma sub_ws_runs_fuel_enough (fuel : nat) (s : list N) :
  length s ≤ fuel → sub_ws_runs_fuel fuel s = sub_ws_runs s.
Proof.
  intros H. unfold sub_ws_runs.
  by rewrite !sub_ws_runs_fuel_collapse.
Qed.

Lemma sub_ws_runs_collapse (s : list N) : sub_ws_runs s = collapse s.
Proof. by apply sub_ws_runs_fuel_collapse. Qed.

Lemma runs_cons_head (c : N) (r : list N) :
  ∃ n rs, runs (c :: r) = (c, S n) :: rs.
Proof.
  revert c. induction r as [|d r IH]; intros c.
  - by exists 0, [].
  - destruct (IH d) as (n & rs & Hr).
    change (runs (c :: d :: r))
      with (match runs (d :: r) with
            | (d', n') :: rs' =>
                if (c =? d')%N then (d', S n') :: rs' else (c, 1) :: (d', n') :: rs'
            | [] => [(c, 1)]
            end).
    rewrite Hr. destruct (c =? d)%N eqn:Hcd.
    + apply N.eqb_eq in Hcd. subst d. by exists (S n), rs.
    + by exists 0, ((d, S n) :: rs).
Qed.

Lemma collapse_squeeze_runs (s : list N) : collapse s = squeeze_runs s.
Proof.
  induction s as [|c s IH]; [done|].
  destruct s as [|d r].
  { unfold squeeze_runs, squeeze. simpl. by rewrite andb_false_r. }
  change (collapse (c :: d :: r))
    with (if isspace c && (d =? c)%N then collapse (d :: r) else c :: collapse (d :: r)).
  rewrite IH. unfold squeeze_runs.
  destruct (runs_cons_head d r) as (n & rs & Hr).
  change (runs (c :: d :: r))
    with (match runs (d :: r) with
          | (d', n') :: rs' =>
              if (c =? d')%N then (d', S n') :: rs' else (c, 1) :: (d', n') :: rs'
          | [] => [(c, 1)]
          end).
  rewrite Hr. rewrite (N.eqb_sym d c).
  destruct (c =? d)%N eqn:Hcd.
  - apply N.eqb_eq in Hcd. subst d. simpl map. simpl concat.
    unfold squeeze. simpl fst. simpl snd.
    destruct (isspace c); [by destruct n | done].
  - rewrite andb_false_r. simpl map. simpl concat.
    replace (squeeze (c, 1)) with [c]; [done|].
    unfold squeeze. simpl. by rewrite andb_false_r.
Qed.

Lemma collapse_no_repeat (s : list N) :
  no_repeated_space s = true → collapse s = s.
Proof.
  induction s as [|c s IH]; [done|].
  destruct s as [|d r]; [done|].
  change (no_repeated_space (c :: d :: r))
    with (negb (isspace c && (d =? c)%N) && no_repeated_space (d :: r)).
  change (collapse (c :: d :: r))
    with (if isspace c && (d =? c)%N then collapse (d :: r) else c :: collapse (d :: r)).
  intros [Hm Hr]%andb_true_iff.
  apply negb_true_iff in Hm. rewrite Hm. by rewrite IH.
Qed.

Lemma collapse_unfold (c d : N) (r : list N) :
  collapse (c :: d :: r) =
  if isspace c && (d =? c)%N then collapse (d :: r) else c :: collapse (d :: r).
Proof. done. Qed.

(** A boundary between two different code points splits the substitution. *)
Lemma collapse_app_boundary (a : list N) (x : N) (b : list N) :
  last a ≠ Some x →
  collapse (a ++ x :: b) = collapse a ++ collapse (x :: b).
Proof.
  induction a as [|c a IH]; [done|]. intros Hlast.
  destruct a as [|d a].
  - change ([c] ++ x :: b) with (c :: x :: b). rewrite collapse_unfold.
    destruct (isspace c && (x =? c)%N) eqn:Hm; [|done].
    apply andb_true_iff in Hm as [_ ->%N.eqb_eq]. done.
  - change ((c :: d :: a) ++ x :: b) with (c :: d :: (a ++ x :: b)).
    rewrite !collapse_unfold.
    change (d :: (a ++ x :: b)) with ((d :: a) ++ x :: b).
    rewrite IH by done. by destruct (isspace c && (d =? c)%N).
Qed.

(** A maximal run of a whitespace code point becomes one copy. *)
Lemma collapse_run (c : N) (n : nat) (b : list N) :
  isspace c = true → head b ≠ Some c →
  collapse (replicate (S n) c ++ b) = c :: collapse b.
Proof.
  intros Hc Hb. induction n as [|n IH].
  - destruct b as [|d b]; [done|].
    change (replicate 1 c ++ d :: b) with (c :: d :: b).
    rewrite collapse_unfold.
    destruct (isspace c && (d =? c)%N) eqn:Hm; [|done].
    apply andb_true_iff in Hm as [_ ->%N.eqb_eq]. done.
  - change (replicate (S (S n)) c ++ b) with (c :: c :: (replicate n c ++ b)).
    rewrite collapse_unfold, Hc, N.eqb_refl. exact IH.
Qed.

Lemma collapse_length (s : list N) : length (collapse s) ≤ length s.
Proof.
  induction s as [|c s IH]; [done|].
  destruct s as [|d r]; [done|]. rewrite collapse_unfold.
  destruct (isspace c && (d =? c)%N); simpl in *; lia.
Qed.

Lemma collapse_shorter (a b : list N) (c : N) :
  isspace c = true →
  length (collapse (a ++ c :: c :: b)) < length (a ++ c :: c :: b).
Proof.
  intros Hc. induction a as [|x a IH].
  - change ([] ++ c :: c :: b) with (c :: c :: b).
    rewrite collapse_unfold, Hc, N.eqb_refl.
    pose proof (collapse_length (c :: b)). simpl in *. lia.
  - change ((x :: a) ++ c :: c :: b) with (x :: (a ++ c :: c :: b)).
    destruct (a ++ c :: c :: b) as [|d r] eqn:Hr.
    { by destruct a. }
    rewrite collapse_unfold.
    destruct (isspace x && (d =? x)%N); simpl in *; lia.
Qed.

(** ** The claims on normalisation *)

(** C9.  [Summarizer.normalize_text] is the text cut into its maximal runs,
    each run of two or more copies of one whitespace code point replaced by
    one copy and every other run kept, then stripped of the whitespace at
    both ends.  In particular: a maximal run of a whitespace code point is
    replaced by a single copy; a text in which no whitespace code point is
    followed by a copy of itself (a space followed by a tab, say) is left as
    it is by the substitution; what the strip removes is whitespace on the
    left and on the right, and the result neither begins nor ends with
    whitespace. *)
Theorem normalize_text_collapses_identical_runs_C9 (text : list N) :
  normalize_text text = spec_normalize_text text
  ∧ (∀ a c n b,
       text = a ++ replicate (S (S n)) c ++ b →
       isspace c = true → last a ≠ Some c → head b ≠ Some c →
       sub_ws_runs text = sub_ws_runs a ++ [c] ++ sub_ws_runs b)
  ∧ (no_repeated_space text = true → sub_ws_runs text = text)
  ∧ (∃ l r, sub_ws_runs text = l ++ normalize_text text ++ r
            ∧ Forall (λ c, isspace c = true) l
            ∧ Forall (λ c, isspace c = true) r)
  ∧ trimmed (normalize_text text)
  ∧ normalize_text [97; 32; 32; 32; 98]%N = [97; 32; 98]%N
  ∧ normalize_text [97; 32; 9; 98]%N = [97; 32; 9; 98]%N.
Proof.
  split; [|split; [|split; [|split; [|split; [|split]]]]].
  - unfold normalize_text, spec_normalize_text.
    by rewrite sub_ws_runs_collapse, collapse_squeeze_runs.
  - intros a c n b -> Hc Ha Hb. rewrite !sub_ws_runs_collapse.
    change (replicate (S (S n)) c ++ b) with (c :: (replicate (S n) c ++ b)).
    rewrite collapse_app_boundary by done.
    change (c :: (replicate (S n) c ++ b)) with (replicate (S (S n)) c ++ b).
    by rewrite collapse_run.
  - intros H. rewrite sub_ws_runs_collapse. by apply collapse_no_repeat.
  - apply strip_split.
  - apply strip_trimmed.
  - done.
  - done.
Qed.

Lemma normalize_text_C9_witness :
  sub_ws_runs ([120] ++ replicate 3 10 ++ [32; 121])%N
    = (sub_ws_runs [120] ++ [10] ++ sub_ws_runs [32; 121])%N
  ∧ sub_ws_runs [32; 9; 32; 10; 120; 120]%N = [32; 9; 32; 10; 120; 120]%N.
Proof.
  pose proof (normalize_text_collapses_identical_runs_C9
                ([120] ++ replicate 3 10 ++ [32; 121])%N) as (_ & Hrun & _).
  pose proof (normalize_text_collapses_identical_runs_C9
                [32; 9; 32; 10; 120; 120]%N) as (_ & _ & Hkeep & _).
  split.
  - apply (Hrun [120%N] 10%N 1 [32; 121]%N);
      [reflexivity | reflexivity | discriminate | discriminate].
  - apply Hkeep. reflexivity.
Defined.

End NormalizeProofs.

Module SummarizerProofs.
Import PyStr PyExn Json Normalize Summarizer PyStrProofs NormalizeProofs.

(** *** Facts about [find_fence] *)

#[local] Arguments find_fence : simpl never.
#[local] Arguments collapse : simpl never.
#[local] Arguments startswith : simpl nomatch.

(** The code points of [fence] and [json_tag] are those of the literals of
    the pattern. *)
Lemma fence_literal : fence = py "```" ∧ json_tag = py "json".
Proof. by split. Qed.

Lemma startswith_fence_inv (s : list N) :
  startswith fence s = true → ∃ r, s = fence ++ r.
Proof.
  destruct s as [|a [|b [|c r]]]; simpl; try done.
  - by rewrite andb_false_r.
  - by rewrite !andb_false_r.
  - rewrite andb_true_r. intros H.
    apply andb_true_iff in H as [Ha H]. apply andb_true_iff in H as [Hb Hc].
    apply N.eqb_eq in Ha, Hb, Hc. subst. by exists r.
Qed.

Lemma startswith_fence_cons (c : N) (r : list N) :
  c ≠ 96%N → startswith fence (c :: r) = false.
Proof.
  intros Hc. simpl. apply andb_false_iff. left.
  apply N.eqb_neq. congruence.
Qed.

Lemma find_fence_cons (c : N) (r : list N) :
  startswith fence (c :: r) = false →
  find_fence (c :: r) = prod_map (cons c) id <$> find_fence r.
Proof.
  intros H. change (find_fence (c :: r))
    with (if startswith fence (c :: r) then Some ([], drop 3 (c :: r))
          else match find_fence r with
               | Some (a, b) => Some (c :: a, b)
               | None => None
               end).
  rewrite H. by destruct (find_fence r) as [[a b]|].
Qed.

Lemma find_fence_fence (r : list N) : find_fence (fence ++ r) = Some ([], r).
Proof. done. Qed.

Lemma find_fence_sound (s a b : list N) :
  find_fence s = Some (a, b) → s = a ++ fence ++ b.
Proof.
  revert a b. induction s as [|c s IH]; intros a b; [done|].
  destruct (startswith fence (c :: s)) eqn:Hf.
  - destruct (startswith_fence_inv _ Hf) as [r ->].
    rewrite find_fence_fence. by intros [= <- <-].
  - rewrite (find_fence_cons _ _ Hf).
    destruct (find_fence s) as [[a' b']|]; [|done].
    simpl. intros [= <- <-]. by rewrite (IH a' b').
Qed.

Lemma startswith_app (p s r : list N) :
  startswith p s = true → startswith p (s ++ r) = true.
Proof.
  revert s. induction p as [|x p IH]; intros s; [done|].
  destruct s as [|y s]; [done|]. simpl.
  intros [Hxy Hp]%andb_true_iff. rewrite Hxy. by apply IH.
Qed.

Lemma startswith_app_long (p s r : list N) :
  length p ≤ length s → startswith p (s ++ r) = startswith p s.
Proof.
  revert s. induction p as [|x p IH]; intros s Hlen; [done|].
  destruct s as [|y s]; [simpl in Hlen; lia|]. simpl.
  rewrite IH; [done | simpl in Hlen; lia].
Qed.

Lemma find_fence_length (s a b : list N) :
  find_fence s = Some (a, b) → 3 ≤ length s.
Proof.
  intros ->%find_fence_sound. rewrite !length_app. simpl. lia.
Qed.

Lemma find_fence_app (s a b r : list N) :
  find_fence s = Some (a, b) → find_fence (s ++ r) = Some (a, b ++ r).
Proof.
  revert a b. induction s as [|c s IH]; intros a b; [done|].
  destruct (startswith fence (c :: s)) eqn:Hf.
  - destruct (startswith_fence_inv _ Hf) as [r0 ->].
    rewrite find_fence_fence. intros [= <- <-].
    by rewrite <- app_assoc.
  - rewrite (find_fence_cons _ _ Hf).
    destruct (find_fence s) as [[a' b']|] eqn:Hs; [|done].
    simpl. intros [= <- <-].
    change ((c :: s) ++ r) with (c :: (s ++ r)).
    rewrite find_fence_cons.
    + by rewrite (IH a' b').
    + change (c :: (s ++ r)) with ((c :: s) ++ r).
      rewrite startswith_app_long; [done|].
      apply find_fence_length in Hs. simpl. lia.
Qed.

Lemma fence_split (a b : list N) (c : N) :
  c :: a ++ fence ++ b = (c :: a ++ [96; 96]%N) ++ 96%N :: b.
Proof. simpl. by rewrite <- app_assoc. Qed.

Lemma find_fence_first (a b : list N) :
  fence_free a → find_fence (a ++ fence ++ b) = Some (a, b).
Proof.
  unfold fence_free. induction a as [|c a IH]; intros Hfree; [done|].
  change ((c :: a) ++ fence ++ b) with (c :: (a ++ fence ++ b)).
  change ((c :: a) ++ [96; 96]%N) with (c :: (a ++ [96; 96]%N)) in Hfree.
  destruct (startswith fence (c :: (a ++ [96; 96]%N))) eqn:Hf.
  { destruct (startswith_fence_inv _ Hf) as [r Hr].
    rewrite Hr, find_fence_fence in Hfree. done. }
  rewrite (find_fence_cons _ _ Hf) in Hfree.
  destruct (find_fence (a ++ [96; 96]%N)) as [[a' b']|] eqn:Ha; [done|].
  rewrite find_fence_cons.
  - by rewrite IH.
  - rewrite fence_split, startswith_app_long; [done|].
    simpl. rewrite length_app. simpl. lia.
Qed.

Lemma find_fence_fence_free (s a b : list N) :
  find_fence s = Some (a, b) → fence_free a.
Proof.
  unfold fence_free.
  revert a b. induction s as [|c s IH]; intros a b; [done|].
  destruct (startswith fence (c :: s)) eqn:Hf.
  - destruct (startswith_fence_inv _ Hf) as [r0 ->].
    rewrite find_fence_fence. by intros [= <- <-].
  - rewrite (find_fence_cons _ _ Hf).
    destruct (find_fence s) as [[a' b']|] eqn:Hs; [|done].
    simpl. intros [= <- <-].
    change ((c :: a') ++ [96; 96]%N) with (c :: (a' ++ [96; 96]%N)).
    rewrite find_fence_cons.
    + by rewrite (IH a' b').
    + apply find_fence_sound in Hs. subst s.
      destruct (startswith fence (c :: a' ++ [96; 96]%N)) eqn:Hf'; [|done].
      rewrite <- Hf, fence_split. symmetry. by apply startswith_app.
Qed.

(** The fence found first does not depend on the text after it. *)
Lemma find_fence_tail (a b b' : list N) :
  find_fence (a ++ fence ++ b) = Some (a, b) →
  find_fence (a ++ fence ++ b') = Some (a, b').
Proof.
  intros H. apply find_fence_first. by eapply find_fence_fence_free.
Qed.

Lemma find_fence_None_prefix (x y : list N) :
  find_fence (x ++ y) = None → find_fence x = None.
Proof.
  intros H. destruct (find_fence x) as [[a b]|] eqn:Hx; [|done].
  by rewrite (find_fence_app _ _ _ y Hx) in H.
Qed.

Lemma find_fence_None_suffix (x y : list N) :
  find_fence (x ++ y) = None → find_fence y = None.
Proof.
  induction x as [|c x IH]; [done|].
  change ((c :: x) ++ y) with (c :: (x ++ y)).
  destruct (startswith fence (c :: (x ++ y))) eqn:Hf.
  - destruct (startswith_fence_inv _ Hf) as [r Hr].
    by rewrite Hr, find_fence_fence.
  - rewrite (find_fence_cons _ _ Hf).
    destruct (find_fence (x ++ y)) as [[a b]|]; [done|]. intros _. by apply IH.
Qed.

(** *** Facts about [collapse] *)

Lemma collapse_cons_nonspace (c : N) (r : list N) :
  isspace c = false → collapse (c :: r) = c :: collapse r.
Proof. intros Hc. destruct r; [done|]. by rewrite collapse_unfold, Hc. Qed.

Lemma collapse_head (c : N) (r : list N) : ∃ t, collapse (c :: r) = c :: t.
Proof.
  revert c. induction r as [|d r IH]; intros c; [by exists []|].
  rewrite collapse_unfold.
  destruct (isspace c && (d =? c)%N) eqn:Hm; [|by eexists].
  apply andb_true_iff in Hm as [_ ->%N.eqb_eq]. apply IH.
Qed.

Lemma collapse_nil_inv (s : list N) : collapse s = [] → s = [].
Proof.
  destruct s as [|c r]; [done|].
  destruct (collapse_head c r) as [t ->]. done.
Qed.

Lemma collapse_Forall (P : N → Prop) (s : list N) :
  Forall P s → Forall P (collapse s).
Proof.
  induction s as [|c s IH]; [done|]. intros [Hc Hs]%Forall_cons.
  destruct s as [|d r]; [by constructor|].
  rewrite collapse_unfold. destruct (isspace c && (d =? c)%N); [by apply IH|].
  constructor; [done | by apply IH].
Qed.

Lemma collapse_app_nonspace (a : list N) (x : N) (b : list N) :
  isspace x = false →
  collapse (a ++ x :: b) = collapse a ++ collapse (x :: b).
Proof.
  intros Hx. induction a as [|c a IH]; [done|].
  destruct a as [|d a].
  - change ([c] ++ x :: b) with (c :: x :: b). rewrite collapse_unfold.
    destruct (isspace c && (x =? c)%N) eqn:Hm; [|done].
    apply andb_true_iff in Hm as [Hc ->%N.eqb_eq]. congruence.
  - change ((c :: d :: a) ++ x :: b) with (c :: d :: (a ++ x :: b)).
    rewrite !collapse_unfold.
    change (d :: (a ++ x :: b)) with ((d :: a) ++ x :: b).
    rewrite IH. by destruct (isspace c && (d =? c)%N).
Qed.

Lemma collapse_snoc_nonspace (a : list N) (x : N) (b : list N) :
  isspace x = false →
  collapse ((a ++ [x]) ++ b) = collapse (a ++ [x]) ++ collapse b.
Proof.
  intros Hx. rewrite <- app_assoc. simpl.
  rewrite !collapse_app_nonspace, !collapse_cons_nonspace by done.
  by rewrite <- app_assoc.
Qed.

Lemma startswith_collapse (p s : list N) :
  nonspace p → startswith p (collapse s) = startswith p s.
Proof.
  intros Hp. revert s. induction Hp as [|x p Hx Hp IH]; intros s; [done|].
  destruct s as [|c r]; [done|].
  destruct (x =? c)%N eqn:Hxc.
  - apply N.eqb_eq in Hxc. subst c.
    rewrite collapse_cons_nonspace by done. simpl. by rewrite IH.
  - destruct (collapse_head c r) as [t ->]. simpl. by rewrite Hxc.
Qed.

Lemma drop_collapse (p s : list N) :
  nonspace p → startswith p s = true →
  drop (length p) (collapse s) = collapse (drop (length p) s).
Proof.
  intros Hp. revert s. induction Hp as [|x p Hx Hp IH]; intros s; [done|].
  destruct s as [|c r]; [done|]. simpl.
  intros [->%N.eqb_eq Hr]%andb_true_iff.
  rewrite collapse_cons_nonspace by done. simpl. by apply IH.
Qed.

Lemma fence_nonspace : nonspace fence.
Proof. by repeat constructor. Qed.

Lemma json_tag_nonspace : nonspace json_tag.
Proof. by repeat constructor. Qed.

Lemma isspace_not_backtick (c : N) : isspace c = true → c ≠ 96%N.
Proof. by intros Hc ->. Qed.

(** Collapsing runs of whitespace neither makes nor breaks a fence. *)
Lemma find_fence_collapse (s : list N) :
  find_fence (collapse s) = prod_map collapse collapse <$> find_fence s.
Proof.
  induction s as [|c s IH]; [done|].
  destruct (startswith fence (c :: s)) eqn:Hf.
  { destruct (startswith_fence_inv _ Hf) as [r Hr]. rewrite Hr.
    change (fence ++ r) with (96 :: 96 :: 96 :: r)%N.
    by rewrite !collapse_cons_nonspace. }
  rewrite (find_fence_cons _ _ Hf).
  destruct s as [|d r].
  { change (collapse [c]) with [c]. by rewrite (find_fence_cons _ _ Hf). }
  rewrite collapse_unfold.
  destruct (isspace c && (d =? c)%N) eqn:Hm.
  - apply andb_true_iff in Hm as [Hc ->%N.eqb_eq].
    rewrite IH.
    rewrite (find_fence_cons c r)
      by (apply startswith_fence_cons; by apply isspace_not_backtick).
    destruct (find_fence r) as [[a b]|]; [|done]. simpl.
    by rewrite collapse_unfold, Hc, N.eqb_refl.
  - assert (Hf' : startswith fence (c :: collapse (d :: r)) = false).
    { rewrite <- Hf, <- (startswith_collapse fence (c :: d :: r) fence_nonspace).
      by rewrite collapse_unfold, Hm. }
    rewrite (find_fence_cons _ _ Hf'), IH.
    destruct (find_fence (d :: r)) as [[a b]|] eqn:Hs; [|done]. simpl.
    apply find_fence_sound in Hs.
    destruct a as [|d' a]; [done|].
    injection Hs as <- _. by rewrite collapse_unfold, Hm.
Qed.

Lemma find_fence_lstrip (s : list N) :
  find_fence (lstrip s) = prod_map lstrip id <$> find_fence s.
Proof.
  induction s as [|c s IH]; [done|]. simpl lstrip.
  destruct (isspace c) eqn:Hc.
  - rewrite IH, (find_fence_cons c s)
      by (apply startswith_fence_cons; by apply isspace_not_backtick).
    destruct (find_fence s) as [[a b]|]; [|done]. simpl. by rewrite Hc.
  - destruct (find_fence (c :: s)) as [[a b]|] eqn:Hs; [|done]. simpl.
    apply find_fence_sound in Hs.
    destruct a as [|c' a]; [done|].
    injection Hs as <- _. simpl. by rewrite Hc.
Qed.

Lemma rstrip_fence (a b : list N) :
  rstrip (a ++ fence ++ b) = a ++ fence ++ rstrip b.
Proof.
  change (a ++ fence ++ b) with (a ++ [96; 96]%N ++ 96%N :: b).
  rewrite app_assoc, rstrip_app_nonspace by done.
  rewrite <- app_assoc. done.
Qed.

Lemma find_fence_rstrip (s : list N) :
  find_fence (rstrip s) = prod_map id rstrip <$> find_fence s.
Proof.
  destruct (find_fence s) as [[a b]|] eqn:Hs; simpl.
  - apply find_fence_sound in Hs as Heq. subst s.
    rewrite rstrip_fence. by eapply find_fence_tail.
  - destruct (rstrip_split s) as [r [Hr _]].
    rewrite Hr in Hs. by apply find_fence_None_prefix in Hs.
Qed.

(** *** What the search finds *)

Lemma startswith_app_split (p q s : list N) :
  startswith (p ++ q) s = startswith p s && startswith q (drop (length p) s).
Proof.
  revert s. induction p as [|x p IH]; intros s; [done|].
  destruct s as [|y s]; [done|]. simpl. by rewrite IH, andb_assoc.
Qed.

Lemma startswith_split (p s : list N) :
  startswith p s = true → s = p ++ drop (length p) s.
Proof.
  revert s. induction p as [|x p IH]; intros s; [done|].
  destruct s as [|y s]; [done|]. simpl.
  intros [->%N.eqb_eq Hp]%andb_true_iff. f_equal. by apply IH.
Qed.

Lemma startswith_refl_app (p r : list N) : startswith p (p ++ r) = true.
Proof. induction p as [|x p IH]; [done|]. simpl. by rewrite N.eqb_refl. Qed.

Lemma find_fence_json_tag (r : list N) :
  find_fence (json_tag ++ r) = prod_map (app json_tag) id <$> find_fence r.
Proof.
  change (json_tag ++ r) with (106 :: 115 :: 111 :: 110 :: r)%N.
  rewrite !find_fence_cons by done.
  by destruct (find_fence r) as [[a b]|].
Qed.

Lemma match_here_fence (r : list N) :
  match_here (fence ++ r) = groups_of_body <$> (fst <$> find_fence r).
Proof.
  unfold match_here.
  rewrite startswith_app_split, !startswith_refl_app.
  change (drop (length fence) (fence ++ r)) with r.
  change (drop 3 (fence ++ r)) with r.
  change (drop 7 (fence ++ r)) with (drop 4 r).
  rewrite andb_true_l.
  destruct (startswith json_tag r) eqn:Hj.
  - apply startswith_split in Hj. change (length json_tag) with 4 in Hj.
    remember (drop 4 r) as r' eqn:Hr'. clear Hr'. subst r.
    rewrite find_fence_json_tag.
    by destruct (find_fence r') as [[b c]|].
  - destruct (find_fence r) as [[b c]|] eqn:Hr; [|done]. simpl.
    unfold groups_of_body.
    destruct (startswith json_tag b) eqn:Hb; [|done].
    apply find_fence_sound in Hr. subst r.
    by rewrite (startswith_app _ _ _ Hb) in Hj.
Qed.

Lemma match_here_no_fence (s : list N) :
  startswith fence s = false → match_here s = None.
Proof.
  intros Hf. unfold match_here. by rewrite startswith_app_split, Hf.
Qed.

Lemma fenced_body_fence (r : list N) :
  fenced_body (fence ++ r) = fst <$> find_fence r.
Proof.
  unfold fenced_body. rewrite find_fence_fence.
  by destruct (find_fence r) as [[b c]|].
Qed.

Lemma fenced_body_cons (c : N) (t : list N) :
  startswith fence (c :: t) = false → fenced_body (c :: t) = fenced_body t.
Proof.
  intros Hf. unfold fenced_body. rewrite (find_fence_cons _ _ Hf).
  by destruct (find_fence t) as [[a r]|].
Qed.

Lemma fenced_body_None_after (r : list N) :
  find_fence r = None → fenced_body (96 :: 96 :: r)%N = None.
Proof.
  intros Hr. unfold fenced_body.
  destruct (find_fence (96 :: 96 :: r)%N) as [[a r']|] eqn:Ht; [|done].
  apply find_fence_sound in Ht.
  assert (∃ x, r = x ++ r') as [x ->].
  { destruct a as [|x1 [|x2 a]]; simplify_eq/=.
    - by exists [96%N].
    - by exists [96; 96]%N.
    - exists (a ++ fence). by rewrite <- app_assoc. }
  by rewrite (find_fence_None_suffix _ _ Hr).
Qed.

(** The search finds the text between the first fence and the next one, in
    group 1 without its tag when it begins with [json], in group 2 otherwise. *)
Lemma re_search_fenced_body (s : list N) :
  re_search s = groups_of_body <$> fenced_body s.
Proof.
  induction s as [|c t IH]; [done|].
  change (re_search (c :: t))
    with (match match_here (c :: t) with
          | Some m => Some m
          | None => re_search t
          end).
  destruct (startswith fence (c :: t)) eqn:Hf.
  - destruct (startswith_fence_inv _ Hf) as [r Hr]. rewrite Hr.
    rewrite match_here_fence, fenced_body_fence.
    destruct (find_fence r) as [[b c']|] eqn:Hb; [done|]. simpl.
    assert (t = 96 :: 96 :: r)%N as -> by (by injection Hr).
    by rewrite IH, fenced_body_None_after.
  - by rewrite (match_here_no_fence _ Hf), IH, (fenced_body_cons _ _ Hf).
Qed.

Lemma extract_json_fenced_body (s : list N) :
  extract_json s =
  match fenced_body s with
  | Some b => payload_of_body b
  | None => Returned None
  end.
Proof.
  unfold extract_json. rewrite re_search_fenced_body.
  destruct (fenced_body s) as [b|]; [|done]. simpl.
  unfold groups_of_body, payload_of_body.
  destruct (startswith json_tag b); simpl; [|done].
  by destruct (drop 4 b).
Qed.

(** *** Normalisation and the fenced body *)

Lemma normalize_text_collapse (s : list N) :
  normalize_text s = strip (collapse s).
Proof. unfold normalize_text. by rewrite sub_ws_runs_collapse. Qed.

Lemma fenced_body_normalize (s : list N) :
  fenced_body (normalize_text s) = collapse <$> fenced_body s.
Proof.
  rewrite normalize_text_collapse. unfold fenced_body, strip.
  rewrite find_fence_rstrip, find_fence_lstrip, find_fence_collapse.
  destruct (find_fence s) as [[a r]|]; [|done]. simpl.
  rewrite find_fence_rstrip, find_fence_collapse.
  by destruct (find_fence r) as [[b c]|].
Qed.

Lemma all_space_strip (s : list N) :
  Forall (λ c, isspace c = true) s → strip s = [].
Proof. intros H. unfold strip. by rewrite lstrip_all_space. Qed.

Lemma strip_collapse_strip (g : list N) :
  strip (collapse (strip g)) = strip (collapse g).
Proof.
  destruct (strip_split g) as (l & r & Hg & Hl & Hr).
  destruct (strip_trimmed g) as [Hhd Hlast].
  destruct (strip g) as [|x m] eqn:Hm.
  - rewrite Hg. simpl. symmetry. apply all_space_strip, collapse_Forall.
    by apply Forall_app.
  - assert (Hx : isspace x = false) by by apply Hhd.
    destruct (exists_last (l:=x :: m)) as (m' & y & Hm'); [done|].
    assert (Hy : isspace y = false).
    { apply Hlast. rewrite Hm'. apply last_snoc. }
    clear Hm. subst g.
    change (l ++ (x :: m) ++ r) with (l ++ x :: (m ++ r)).
    rewrite collapse_app_nonspace by done.
    change (x :: (m ++ r)) with ((x :: m) ++ r).
    rewrite Hm'. rewrite collapse_snoc_nonspace by done.
    rewrite <- Hm'.
    destruct (collapse_head x m) as [t Ht]. rewrite Ht.
    unfold strip.
    rewrite lstrip_space_app by by apply collapse_Forall.
    change ((x :: t) ++ collapse r) with (x :: (t ++ collapse r)).
    rewrite !lstrip_nonspace by done.
    change (x :: (t ++ collapse r)) with ((x :: t) ++ collapse r).
    rewrite rstrip_space_app by by apply collapse_Forall.
    done.
Qed.

(** The payload extracted from the normalised text is the normalised
    payload of the text itself. *)
Lemma extract_json_normalize (s : list N) :
  extract_json (normalize_text s) =
  match extract_json s with
  | Returned (Some p) => Returned (Some (normalize_text p))
  | other => other
  end.
Proof.
  rewrite !extract_json_fenced_body, fenced_body_normalize.
  destruct (fenced_body s) as [b|]; [|done]. simpl.
  unfold payload_of_body.
  rewrite (startswith_collapse _ _ json_tag_nonspace).
  destruct (startswith json_tag b) eqn:Hb.
  - pose proof (drop_collapse json_tag b json_tag_nonspace Hb) as Hdrop.
    change (length json_tag) with 4 in Hdrop. rewrite Hdrop.
    destruct (drop 4 b) as [|c g] eqn:Hd; [done|].
    destruct (collapse_head c g) as [t Ht]. rewrite Ht, <- Ht.
    by rewrite normalize_text_collapse, strip_collapse_strip.
  - by rewrite normalize_text_collapse, strip_collapse_strip.
Qed.

Lemma summarize_total (json_loads : list N → result json)
    (provider_call : list N → list N → result (option (list N)))
    (model prompt : list N) :
  ∃ v, summarize json_loads provider_call model prompt = Returned v.
Proof.
  unfold summarize.
  destruct (summarize_response json_loads (provider_call model prompt));
    by eexists.
Qed.

Lemma summarize_payload (json_loads : list N → result json)
    (provider_call : list N → list N → result (option (list N)))
    (model prompt text p : list N) :
  provider_call model prompt = Returned (Some text) →
  extract_json text = Returned (Some p) →
  summarize json_loads provider_call model prompt
  = Returned (parse_payload json_loads (normalize_text p)).
Proof.
  intros Hcall Hp. unfold summarize, summarize_response.
  rewrite Hcall, extract_json_normalize, Hp. unfold parse_payload.
  destruct (normalize_text p) as [|c d]; [done|].
  by destruct (load_json json_loads (c :: d)).
Qed.

Lemma summarize_no_block (json_loads : list N → result json)
    (provider_call : list N → list N → result (option (list N)))
    (model prompt text : list N) :
  provider_call model prompt = Returned (Some text) →
  fenced_body text = None →
  summarize json_loads provider_call model prompt = Returned empty_dict.
Proof.
  intros Hcall Hb. unfold summarize, summarize_response.
  rewrite Hcall, extract_json_normalize, extract_json_fenced_body, Hb. done.
Qed.

Lemma fenced_body_sound (s b : list N) :
  fenced_body s = Some b → ∃ a c, s = a ++ fence ++ b ++ fence ++ c.
Proof.
  unfold fenced_body.
  destruct (find_fence s) as [[a r]|] eqn:Hs; [|done].
  destruct (find_fence r) as [[b' c]|] eqn:Hr; [|done].
  intros [= ->]. apply find_fence_sound in Hs, Hr. subst.
  by exists a, c.
Qed.

Lemma no_backtick_fence_free (a : list N) :
  Forall (λ c, c ≠ 96%N) a → fence_free a.
Proof.
  unfold fence_free. induction 1 as [|c a Hc _ IH]; [done|].
  change ((c :: a) ++ [96; 96]%N) with (c :: (a ++ [96; 96]%N)).
  rewrite find_fence_cons by by apply startswith_fence_cons.
  by rewrite IH.
Qed.

Lemma space_no_backtick (l : list N) :
  Forall (λ c, isspace c = true) l → Forall (λ c, c ≠ 96%N) l.
Proof.
  intros H. eapply Forall_impl; [exact H|]. intros c. apply isspace_not_backtick.
Qed.

Lemma rstrip_trimmed (m : list N) :
  (∀ c, last m = Some c → isspace c = false) → rstrip m = m.
Proof.
  intros Hlast. destruct m as [|x m]; [done|].
  destruct (exists_last (l:=x :: m)) as (m' & y & Hm'); [done|].
  rewrite Hm' in *. rewrite rstrip_app_nonspace; [done|].
  apply Hlast, last_snoc.
Qed.

Lemma strip_padded (l m r : list N) :
  Forall (λ c, isspace c = true) l → Forall (λ c, isspace c = true) r →
  trimmed m → strip (l ++ m ++ r) = m.
Proof.
  intros Hl Hr [Hhd Hlast]. unfold strip. rewrite lstrip_space_app by done.
  destruct m as [|x m].
  - simpl. by rewrite lstrip_all_space.
  - change ((x :: m) ++ r) with (x :: (m ++ r)).
    rewrite lstrip_nonspace by by apply Hhd.
    change (x :: (m ++ r)) with ((x :: m) ++ r).
    rewrite rstrip_space_app by done. by apply rstrip_trimmed.
Qed.

Lemma strip_length (s : list N) : length (strip s) ≤ length s.
Proof.
  destruct (strip_split s) as (l & r & Hs & _).
  rewrite Hs at 2. rewrite !length_app. lia.
Qed.

Lemma normalize_text_shortens (p : list N) :
  has_space_run p → normalize_text p ≠ p.
Proof.
  intros (a & c & b & -> & Hc) Heq.
  pose proof (collapse_shorter a b c Hc) as Hlt.
  pose proof (strip_length (collapse (a ++ c :: c :: b))) as Hle.
  rewrite <- normalize_text_collapse, Heq in Hle. lia.
Qed.

(** A response in which the first fence opens a block tagged [json] whose
    body, between optional whitespace, is [body]: the result is what the
    decoder makes of [body], when [body] is not changed by normalisation. *)
Lemma summarize_first_fenced_json (json_loads : list N → result json)
    (provider_call : list N → list N → result (option (list N)))
    (model prompt pre ws1 body ws2 post : list N) (v : json) :
  provider_call model prompt
    = Returned (Some (pre ++ fence ++ json_tag ++ ws1 ++ body ++ ws2 ++ fence ++ post)) →
  fence_free pre →
  Forall (λ c, isspace c = true) ws1 → Forall (λ c, isspace c = true) ws2 →
  body ≠ [] → trimmed body → Forall (λ c, c ≠ 96%N) body →
  no_repeated_space body = true →
  json_loads body = Returned v →
  summarize json_loads provider_call model prompt = Returned v.
Proof.
  intros Hcall Hpre Hws1 Hws2 Hne Htrim Htick Hrep Hv.
  rewrite (summarize_payload _ _ _ _ _ body Hcall).
  - rewrite normalize_text_collapse, collapse_no_repeat by done.
    rewrite <- (app_nil_r body), <- (app_nil_l (body ++ [])).
    rewrite strip_padded by done.
    destruct body as [|c d]; [done|].
    unfold parse_payload, load_json. by rewrite Hv.
  - rewrite extract_json_fenced_body. unfold fenced_body.
    rewrite (find_fence_first pre _ Hpre).
    replace (json_tag ++ ws1 ++ body ++ ws2 ++ fence ++ post)
      with ((json_tag ++ ws1 ++ body ++ ws2) ++ fence ++ post)
      by by rewrite <- !app_assoc.
    rewrite find_fence_first.
    + unfold payload_of_body. rewrite startswith_refl_app.
      change (drop 4 (json_tag ++ ws1 ++ body ++ ws2)) with (ws1 ++ body ++ ws2).
      destruct (ws1 ++ body ++ ws2) as [|c g] eqn:Hb.
      * apply app_eq_nil in Hb as [_ Hb]. by apply app_eq_nil in Hb as [Hb _].
      * rewrite <- Hb. by rewrite strip_padded.
    + apply no_backtick_fence_free.
      rewrite !Forall_app. split_and!; try done; try by apply space_no_backtick.
      by repeat constructor.
Qed.

Lemma sample_body_facts :
  sample_body ≠ [] ∧ trimmed sample_body ∧ Forall (λ c, c ≠ 96%N) sample_body
  ∧ no_repeated_space sample_body = true
  ∧ Json.json_loads sample_body = Returned sample_mapping.
Proof.
  split_and!; try done.
  - split; intros c; vm_compute; by intros [= <-].
  - apply (bool_decide_unpack _). by vm_compute.
Qed.

(** ** The claims on [summarize] *)

(** C1, as amended.  The pattern of [extract_json] takes the leftmost fenced
    block of the normalised response, tagged or not.  (1) When the first
    fence of the response opens a block tagged [json] whose body, between
    optional whitespace, is the JSON object with summary S and tags t1 and
    t2, [summarize] returns that mapping.  (2) When the response holds no
    fenced block, [summarize] returns the empty dict.  (3) When the decoder
    raises on the payload of the leftmost fenced block, [summarize] returns
    the empty dict.  (4) [summarize] never raises: it returns a value
    whatever the provider and the decoder do. *)
Theorem summarize_fenced_json_C1 :
  (∀ provider_call model prompt pre ws1 ws2 post,
     provider_call model prompt
       = Returned (Some (pre ++ fence ++ json_tag ++ ws1 ++ sample_body
                             ++ ws2 ++ fence ++ post)) →
     fence_free pre →
     Forall (λ c, isspace c = true) ws1 → Forall (λ c, isspace c = true) ws2 →
     summarize Json.json_loads provider_call model prompt
       = Returned sample_mapping)
  ∧ (∀ json_loads provider_call model prompt text,
       provider_call model prompt = Returned (Some text) →
       (∀ a b c, text ≠ a ++ fence ++ b ++ fence ++ c) →
       summarize json_loads provider_call model prompt = Returned empty_dict)
  ∧ (∀ json_loads provider_call model prompt text p e,
       provider_call model prompt = Returned (Some text) →
       extract_json text = Returned (Some p) →
       json_loads (normalize_text p) = Raised e →
       summarize json_loads provider_call model prompt = Returned empty_dict)
  ∧ (∀ json_loads provider_call model prompt,
       ∃ v, summarize json_loads provider_call model prompt = Returned v).
Proof.
  split_and!.
  - intros call model prompt pre ws1 ws2 post Hcall Hpre Hws1 Hws2.
    destruct sample_body_facts as (Hne & Htrim & Htick & Hrep & Hv).
    by eapply summarize_first_fenced_json.
  - intros jl call model prompt text Hcall Hno.
    apply (summarize_no_block _ _ _ _ text Hcall).
    destruct (fenced_body text) as [b|] eqn:Hb; [|done].
    destruct (fenced_body_sound _ _ Hb) as (a & c & Ht). by destruct (Hno a b c).
  - intros jl call model prompt text p e Hcall Hp He.
    rewrite (summarize_payload _ _ _ _ _ _ Hcall Hp). f_equal.
    unfold parse_payload, load_json. rewrite He.
    destruct (normalize_text p); [done|]. by destruct (isinstance e _).
  - apply summarize_total.
Qed.

Lemma summarize_fenced_json_C1_witness :
  summarize Json.json_loads
    (λ _ _, Returned (Some (py "Summary: " ++ fence ++ json_tag ++ [10%N]
                              ++ sample_body ++ [10%N] ++ fence ++ py " done")))
    (py "m") (py "article") = Returned sample_mapping
  ∧ summarize Json.json_loads (λ _ _, Returned (Some (py "no block here")))
      (py "m") (py "article") = Returned empty_dict
  ∧ summarize Json.json_loads
      (λ _ _, Returned (Some (fence ++ json_tag ++ py "{oops" ++ fence)))
      (py "m") (py "article") = Returned empty_dict.
Proof.
  destruct summarize_fenced_json_C1 as (Hfirst & Hnone & Hbad & _).
  split_and!.
  - apply (Hfirst _ (py "m") (py "article") (py "Summary: ") [10%N] [10%N] (py " done")).
    + reflexivity.
    + reflexivity.
    + by repeat constructor.
    + by repeat constructor.
  - apply (Hnone _ _ (py "m") (py "article") (py "no block here")).
    + reflexivity.
    + intros a b c Heq.
      assert (Hin : 96%N ∈ py "no block here").
      { rewrite Heq. set_solver. }
      revert Hin. apply (bool_decide_unpack _). by vm_compute.
  - apply (Hbad _ _ (py "m") (py "article")
             (fence ++ json_tag ++ py "{oops" ++ fence) (py "{oops")
             (Exception JSONDecodeError [])); reflexivity.
Defined.

(** The claim as written fails: the response holds a fenced block tagged
    [json] with the sample body, the decoder reads that body as the sample
    mapping, and yet [summarize] returns the empty dict, because an untagged
    fenced block comes first. *)
Lemma summarize_fenced_json_C1_counterexample :
  (∃ a c, earlier_block_response
          = a ++ fence ++ json_tag ++ sample_body ++ fence ++ c)
  ∧ Json.json_loads sample_body = Returned sample_mapping
  ∧ summarize Json.json_loads (λ _ _, Returned (Some earlier_block_response))
      (py "m") (py "article") = Returned empty_dict
  ∧ sample_mapping ≠ empty_dict.
Proof.
  split_and!; try done.
  exists (py "```text``` "), []. by rewrite app_nil_r.
Qed.

(** C10.  The whole response is normalised before the fenced block is
    looked for.  For every response whose leftmost fenced block has payload
    [p]: the payload extracted by [summarize] is [normalize_text p], that is
    what is parsed, and it differs from [p] as soon as [p] holds a run of
    one repeated whitespace code point.  The parsed summary can differ from
    the one inside the fence: for the response whose fenced object has the
    summary a, two spaces, b, [summarize] returns the summary a, one space,
    b, although the decoder reads the payload itself with both spaces. *)
Theorem summarize_parses_normalized_payload_C10 :
  (∀ json_loads provider_call model prompt text p,
     provider_call model prompt = Returned (Some text) →
     extract_json text = Returned (Some p) →
     extract_json (normalize_text text) = Returned (Some (normalize_text p))
     ∧ summarize json_loads provider_call model prompt
       = Returned (parse_payload json_loads (normalize_text p))
     ∧ (has_space_run p → normalize_text p ≠ p))
  ∧ extract_json padded_response = Returned (Some padded_payload)
  ∧ Json.json_loads padded_payload
    = Returned (JObj [(py "summary", JStr (py "a  b")); (py "tags", JArr [])])
  ∧ summarize Json.json_loads (λ _ _, Returned (Some padded_response))
      (py "m") (py "article")
    = Returned (JObj [(py "summary", JStr (py "a b")); (py "tags", JArr [])]).
Proof.
  split_and!; try done.
  intros jl call model prompt text p Hcall Hp. split_and!.
  - by rewrite extract_json_normalize, Hp.
  - by apply (summarize_payload _ _ _ _ text).
  - apply normalize_text_shortens.
Qed.

Lemma summarize_parses_normalized_payload_C10_witness :
  extract_json (normalize_text padded_response)
    = Returned (Some (normalize_text padded_payload))
  ∧ normalize_text padded_payload ≠ padded_payload.
Proof.
  destruct summarize_parses_normalized_payload_C10 as (Hall & _).
  destruct (Hall Json.json_loads (λ _ _, Returned (Some padded_response))
              (py "m") (py "article") padded_response padded_payload)
    as (Hext & _ & Hne); [reflexivity | reflexivity |].
  split; [exact Hext|]. apply Hne.
  exists (pyq "{'summary':'a"), 32%N, (pyq "b','tags':[]}"). by split.
Defined.

End SummarizerProofs.

Module StructuresProofs.
Import PyStr Json Structures.

Lemma str_eqb_eq (a b : list N) : str_eqb a b = true ↔ a = b.
Proof. unfold str_eqb. apply bool_decide_eq_true. Qed.

Lemma News_eq_spec (a b : News) :
  News_eq a b = true ↔ id a = id b ∧ source a = source b.
Proof. unfold News_eq. by rewrite andb_true_iff, !str_eqb_eq. Qed.

(** C5, as amended.  Two records compare equal exactly when their ids and
    their sources match; records that compare equal have equal hashes; the
    comparison and the hash read no field but id and source, so records
    that agree on both are interchangeable in either.  (Equal hashes do not
    make records equal: see the counterexample.) *)
Theorem news_identity_C5 (hash : list N → Z) (a b : News) :
  (News_eq a b = true ↔ id a = id b ∧ source a = source b)
  ∧ (News_eq a b = true → News_hash hash a = News_hash hash b)
  ∧ (∀ a', id a' = id a → source a' = source a →
       News_eq a' b = News_eq a b ∧ News_eq b a' = News_eq b a
       ∧ News_hash hash a' = News_hash hash a).
Proof.
  split_and!.
  - apply News_eq_spec.
  - intros [Hid Hsrc]%News_eq_spec. unfold News_hash, hash_key. by rewrite Hid, Hsrc.
  - intros a' Hid Hsrc. unfold News_eq, News_hash, hash_key. by rewrite Hid, Hsrc.
Qed.

Lemma news_identity_C5_witness :
  News_hash (λ s, Z.of_nat (length s))
    (news (py "42") (py "HackerNews") (py "first body"))
  = News_hash (λ s, Z.of_nat (length s))
      (news (py "42") (py "HackerNews") (py "another body")).
Proof.
  destruct (news_identity_C5 (λ s, Z.of_nat (length s))
              (news (py "42") (py "HackerNews") (py "first body"))
              (news (py "42") (py "HackerNews") (py "another body")))
    as (_ & Hhash & _).
  apply Hhash. reflexivity.
Defined.

(** Equal hashes without equality: the ids and sources differ, yet both
    records hash the string a-b-c, whatever the hash function. *)
Lemma news_identity_C5_counterexample :
  (∀ hash : list N → Z,
     News_hash hash (news (py "a-b") (py "c") []) =
     News_hash hash (news (py "a") (py "b-c") []))
  ∧ News_eq (news (py "a-b") (py "c") []) (news (py "a") (py "b-c") []) = false.
Proof. split; [intros hash|]; reflexivity. Qed.

End StructuresProofs.

Module QueueProofs.
Import PyStr Queue.

Section Items.

(** The items of a queue.  What the Redis client does to an item on the
    wire (it is stored and returned as bytes) is not modelled, and the
    calls to the logger are left out. *)
Context {A : Type}.

(** *** The list backend *)

Lemma ListQueue_eta (q : @ListQueue A) :
  {| queue_name := queue_name q; queue := queue q |} = q.
Proof. by destruct q. Qed.

Lemma enqueue_all_queue (xs : list A) (q : @ListQueue A) :
  fold_left enqueue xs q
  = {| queue_name := queue_name q; queue := queue q ++ xs |}.
Proof.
  revert q. induction xs as [|x xs IH]; intros q; simpl.
  - by rewrite app_nil_r, ListQueue_eta.
  - rewrite IH. simpl. by rewrite <- app_assoc.
Qed.

Lemma dequeue_n_spec (k : nat) (name : list N) (xs : list A) :
  k ≤ length xs →
  dequeue_n k {| queue_name := name; queue := xs |}
  = (Some <$> take k xs, {| queue_name := name; queue := drop k xs |}).
Proof.
  revert xs. induction k as [|k IH]; intros xs Hk; [done|].
  destruct xs as [|x xs]; [simpl in Hk; lia|].
  simpl. unfold dequeue. simpl. rewrite IH; [done | simpl in Hk; lia].
Qed.

Lemma drain_list (fuel : nat) (name : list N) (xs : list A) :
  length xs < fuel →
  drain dequeue_generator_next fuel {| queue_name := name; queue := xs |}
  = Some (Some <$> xs, {| queue_name := name; queue := [] |}).
Proof.
  revert xs. induction fuel as [|fuel IH]; intros xs Hlen; [lia|].
  destruct xs as [|x xs]; [done|].
  simpl. unfold dequeue_generator_next, dequeue. simpl.
  rewrite IH; [done | simpl in Hlen; lia].
Qed.

(** *** The Redis backend: every state met is [store name l db] *)

Lemma lpush_store (name : list N) (v : A) (l : list A) (db : gmap (list N) (list A)) :
  db !! name = None →
  lpush name v (store name l db) = store name (v :: l) db.
Proof.
  intros Hdb. unfold lpush. destruct l as [|w l]; simpl.
  - by rewrite lookup_delete_eq, insert_delete_eq.
  - by rewrite lookup_insert_eq, insert_insert_eq.
Qed.

Lemma store_store (name : list N) (l l' : list A) (db : gmap (list N) (list A)) :
  store name l (store name l' db) = store name l db.
Proof.
  destruct l, l'; simpl;
    by rewrite ?delete_delete_eq, ?delete_insert_eq, ?insert_delete_eq,
               ?insert_insert_eq.
Qed.

Lemma lpop_store (name : list N) (v : A) (l : list A) (db : gmap (list N) (list A)) :
  lpop name (store name (v :: l) db) = (Some v, store name l db).
Proof.
  unfold lpop. simpl store at 1. rewrite lookup_insert_eq.
  by rewrite <- (store_store name l (v :: l) db).
Qed.

Lemma lpop_store_nil (name : list N) (db : gmap (list N) (list A)) :
  lpop name (store name [] db) = (None, store name [] db).
Proof. unfold lpop. simpl. by rewrite lookup_delete_eq. Qed.

Lemma rpop_store (name : list N) (v : A) (l : list A) (db : gmap (list N) (list A)) :
  rpop name (store name (l ++ [v]) db) = (Some v, store name l db).
Proof.
  unfold rpop. destruct (l ++ [v]) as [|w l'] eqn:Hl.
  { by destruct l. }
  simpl store at 1. rewrite lookup_insert_eq.
  rewrite <- Hl, last_snoc, removelast_last.
  rewrite Hl. by rewrite <- (store_store name l (w :: l') db).
Qed.

Lemma redis_enqueue_all (name : list N) (xs l : list A) (db : gmap (list N) (list A)) :
  db !! name = None →
  fold_left (redis_enqueue name) xs (store name l db)
  = store name (reverse xs ++ l) db.
Proof.
  intros Hdb. revert l. induction xs as [|x xs IH]; intros l; [done|].
  simpl. unfold redis_enqueue at 2. rewrite lpush_store by done.
  rewrite IH, reverse_cons. by rewrite <- app_assoc.
Qed.

Lemma redis_dequeue_n_spec (k : nat) (name : list N) (xs : list A)
    (db : gmap (list N) (list A)) :
  k ≤ length xs →
  redis_dequeue_n k name (store name (reverse xs) db)
  = (Some <$> take k xs, store name (reverse (drop k xs)) db).
Proof.
  revert xs. induction k as [|k IH]; intros xs Hk; [done|].
  destruct xs as [|x xs]; [simpl in Hk; lia|].
  simpl. unfold redis_dequeue. rewrite reverse_cons, rpop_store.
  rewrite IH; [done | simpl in Hk; lia].
Qed.

Lemma drain_redis (fuel : nat) (name : list N) (l : list A)
    (db : gmap (list N) (list A)) :
  length l < fuel →
  drain (redis_dequeue_generator_next name) fuel (store name l db)
  = Some (l, store name [] db).
Proof.
  revert l. induction fuel as [|fuel IH]; intros l Hlen; [lia|].
  destruct l as [|v l].
  - change (drain (redis_dequeue_generator_next name) (S fuel) (store name [] db))
      with (match redis_dequeue_generator_next name (store name [] db) with
            | None => Some ([], store name [] db)
            | Some (x, s') =>
                match drain (redis_dequeue_generator_next name) fuel s' with
                | Some (xs, s'') => Some (x :: xs, s'')
                | None => None
                end
            end).
    unfold redis_dequeue_generator_next. by rewrite lpop_store_nil.
  - change (drain (redis_dequeue_generator_next name) (S fuel) (store name (v :: l) db))
      with (match redis_dequeue_generator_next name (store name (v :: l) db) with
            | None => Some ([], store name (v :: l) db)
            | Some (x, s') =>
                match drain (redis_dequeue_generator_next name) fuel s' with
                | Some (xs, s'') => Some (x :: xs, s'')
                | None => None
                end
            end).
    unfold redis_dequeue_generator_next. rewrite lpop_store.
    rewrite IH; [done | simpl in Hlen; lia].
Qed.

End Items.

(** ** The claim on the order of the queues *)

(** C2, on the code.  On a fresh queue, after the items [xs] were enqueued
    in that order, [k] calls to [dequeue] return the first [k] items in the
    order of enqueueing, for both backends.  Draining what remains through
    [dequeue_generator] stops with the queue empty, for both backends; the
    list backend yields the remaining items in the order of enqueueing,
    the Redis backend yields them in the reverse order, the newest first:
    its generator pops from the left, the end [enqueue] pushes to. *)
Theorem queue_order_C2 {A : Type} (name : list N) (xs : list A) (k : nat)
    (db : gmap (list N) (list A)) :
  k ≤ length xs → db !! name = None →
  (dequeue_n k (fold_left enqueue xs (ListQueue_init name))).1
    = Some <$> take k xs
  ∧ (∀ fuel, length xs - k < fuel →
       drain dequeue_generator_next fuel
         (dequeue_n k (fold_left enqueue xs (ListQueue_init name))).2
       = Some (Some <$> drop k xs, ListQueue_init name))
  ∧ (redis_dequeue_n k name (fold_left (redis_enqueue name) xs db)).1
    = Some <$> take k xs
  ∧ (∀ fuel, length xs - k < fuel →
       drain (redis_dequeue_generator_next name) fuel
         (redis_dequeue_n k name (fold_left (redis_enqueue name) xs db)).2
       = Some (reverse (drop k xs), db)).
Proof.
  intros Hk Hdb.
  assert (Hq : fold_left enqueue xs (ListQueue_init name)
               = {| queue_name := name; queue := xs |})
    by by rewrite enqueue_all_queue.
  assert (Hfresh : store name [] db = db) by (simpl; by rewrite delete_id).
  assert (Hr : fold_left (redis_enqueue name) xs db = store name (reverse xs) db).
  { rewrite <- Hfresh at 1. by rewrite redis_enqueue_all, app_nil_r. }
  rewrite Hq, Hr, (dequeue_n_spec k name xs Hk), redis_dequeue_n_spec by done.
  split_and!; try done.
  - intros fuel Hfuel. apply drain_list. rewrite length_drop. lia.
  - intros fuel Hfuel. cbn [snd]. rewrite drain_redis.
    + by rewrite Hfresh.
    + rewrite length_reverse, length_drop. lia.
Qed.

(** The two backends on the items a, b, c: three calls to [dequeue] return
    a, b, c; after one call to [dequeue], the generator of the list backend
    yields b, c and the generator of the Redis backend yields c, b. *)
Lemma queue_order_C2_witness :
  (dequeue_n 3 (fold_left enqueue [py "a"; py "b"; py "c"] (ListQueue_init (py "q")))).1
    = [Some (py "a"); Some (py "b"); Some (py "c")]
  ∧ (redis_dequeue_n 3 (py "q")
       (fold_left (redis_enqueue (py "q")) [py "a"; py "b"; py "c"] ∅)).1
    = [Some (py "a"); Some (py "b"); Some (py "c")]
  ∧ drain dequeue_generator_next 3
      (dequeue_n 1 (fold_left enqueue [py "a"; py "b"; py "c"] (ListQueue_init (py "q")))).2
    = Some ([Some (py "b"); Some (py "c")], ListQueue_init (py "q"))
  ∧ drain (redis_dequeue_generator_next (py "q")) 3
      (redis_dequeue_n 1 (py "q")
         (fold_left (redis_enqueue (py "q")) [py "a"; py "b"; py "c"] ∅)).2
    = Some ([py "c"; py "b"], ∅).
Proof.
  destruct (queue_order_C2 (py "q") [py "a"; py "b"; py "c"] 3 ∅)
    as (Hl3 & _ & Hr3 & _); [simpl; lia | apply lookup_empty |].
  destruct (queue_order_C2 (py "q") [py "a"; py "b"; py "c"] 1 ∅)
    as (_ & Hlg & _ & Hrg); [simpl; lia | apply lookup_empty |].
  split_and!.
  - exact Hl3.
  - exact Hr3.
  - apply (Hlg 3). simpl. lia.
  - apply (Hrg 3). simpl. lia.
Defined.

End QueueProofs.

Module SingletonProofs.
Import PyStr PyExn Singleton.

Section Call.

(** The outcome of [type.__call__], that is of the class's [__init__]:
    [None] when it returns, the exception when it raises. *)
Variable init : queue_class → call_args → option exn.

Lemma call_well_formed (cls : queue_class) (a : call_args) (st : registry) :
  well_formed st → well_formed (call init cls a st).2.
Proof.
  intros [Hlt Hinj]. unfold call.
  destruct (instances st !! (cls, singleton_key a)) as [r|] eqn:Hk; [done|].
  destruct (init cls a); [done|]. simpl. split; simpl.
  - intros k r. rewrite lookup_insert. case_decide.
    + intros [= <-]. lia.
    + intros Hr%Hlt. lia.
  - intros k k' r. rewrite !lookup_insert.
    repeat case_decide; subst; try done.
    + intros [= <-] Hr%Hlt. lia.
    + intros Hr%Hlt [= <-]. lia.
    + apply Hinj.
Qed.

Lemma reachable_well_formed (st : registry) :
  reachable init st → well_formed st.
Proof.
  induction 1 as [|cls a st _ IH].
  - split; intros ?; simpl; by setoid_rewrite lookup_empty.
  - by apply call_well_formed.
Qed.

Lemma call_registers (cls : queue_class) (a : call_args) (st st1 : registry)
    (r : nat) :
  call init cls a st = (Returned r, st1) →
  instances st1 !! (cls, singleton_key a) = Some r.
Proof.
  unfold call.
  destruct (instances st !! (cls, singleton_key a)) as [r'|] eqn:Hk.
  - by intros [= <- <-].
  - destruct (init cls a); [done|]. intros [= <- <-]. simpl.
    apply lookup_insert_eq.
Qed.

Lemma call_fresh_or_registered (cls : queue_class) (a : call_args)
    (st st1 : registry) (r : nat) :
  call init cls a st = (Returned r, st1) →
  instances st !! (cls, singleton_key a) = Some r ∨ r = allocated st.
Proof.
  unfold call.
  destruct (instances st !! (cls, singleton_key a)) as [r'|] eqn:Hk.
  - intros [= <- <-]. by left.
  - destruct (init cls a); [done|]. intros [= <- <-]. by right.
Qed.

End Call.

(** ** The claim on the singleton *)

(** C7.  In a registry reached from the empty one, once a call of a class
    with some queue name has returned an instance: a second call of the
    same class with the same name returns that very instance and leaves the
    registry as it is, so that nothing is created; a call of the same class
    with another name, and a call of another class with any name, return a
    different instance. *)
Theorem singleton_per_class_and_name_C7 (init : queue_class → call_args → option exn)
    (cls : queue_class) (a : call_args) (st st1 : registry) (r : nat) :
  reachable init st →
  call init cls a st = (Returned r, st1) →
  (∀ a', singleton_key a' = singleton_key a →
     call init cls a' st1 = (Returned r, st1))
  ∧ (∀ a' r' st2, singleton_key a' ≠ singleton_key a →
       call init cls a' st1 = (Returned r', st2) → r' ≠ r)
  ∧ (∀ cls' a' r' st2, cls' ≠ cls →
       call init cls' a' st1 = (Returned r', st2) → r' ≠ r).
Proof.
  intros Hreach Hcall.
  pose proof (call_registers _ _ _ _ _ _ Hcall) as Hreg.
  assert (Hwf : well_formed st1).
  { replace st1 with (call init cls a st).2 by by rewrite Hcall.
    by apply call_well_formed, (reachable_well_formed init). }
  destruct Hwf as [Hlt Hinj].
  assert (Hother : ∀ cls' a' r' st2,
            (cls', singleton_key a') ≠ (cls, singleton_key a) →
            call init cls' a' st1 = (Returned r', st2) → r' ≠ r).
  { intros cls' a' r' st2 Hne Hcall' ->.
    destruct (call_fresh_or_registered _ _ _ _ _ _ Hcall') as [Hold|Hnew].
    - by apply Hne, (Hinj _ _ r).
    - apply Hlt in Hreg. lia. }
  split_and!.
  - intros a' Hkey. unfold call. by rewrite Hkey, Hreg.
  - intros a' r' st2 Hne. apply Hother. congruence.
  - intros cls' a' r' st2 Hne. apply Hother. congruence.
Qed.

(** Two constructions [ListQueue("llm-queue")] and
    [ListQueue(queue_name="llm-queue")] give one object; [ListQueue("other")]
    and [RedisQueue("llm-queue")] give others. *)
Lemma singleton_per_class_and_name_C7_witness :
  call (λ _ _, None) ListQueue
    {| args := []; kwargs := {[py "queue_name" := py "llm-queue"]} |}
    (call (λ _ _, None) ListQueue {| args := [py "llm-queue"]; kwargs := ∅ |}
       empty_registry).2
  = call (λ _ _, None) ListQueue {| args := [py "llm-queue"]; kwargs := ∅ |}
      empty_registry
  ∧ (call (λ _ _, None) ListQueue {| args := [py "other"]; kwargs := ∅ |}
       (call (λ _ _, None) ListQueue {| args := [py "llm-queue"]; kwargs := ∅ |}
          empty_registry).2).1 ≠ Returned 0
  ∧ (call (λ _ _, None) RedisQueue {| args := [py "llm-queue"]; kwargs := ∅ |}
       (call (λ _ _, None) ListQueue {| args := [py "llm-queue"]; kwargs := ∅ |}
          empty_registry).2).1 ≠ Returned 0.
Proof.
  destruct (singleton_per_class_and_name_C7 (λ _ _, None) ListQueue
              {| args := [py "llm-queue"]; kwargs := ∅ |} empty_registry
              (call (λ _ _, None) ListQueue
                 {| args := [py "llm-queue"]; kwargs := ∅ |} empty_registry).2 0)
    as (Hsame & Hname & Hclass); [constructor | reflexivity |].
  split_and!.
  - apply Hsame. reflexivity.
  - destruct (call _ ListQueue {| args := [py "other"] |} _) as [[r'|e] st2] eqn:Hc;
      [|done].
    intros [= ->]. apply (Hname _ 0 st2) in Hc; [done | discriminate].
  - destruct (call _ RedisQueue _ _) as [[r'|e] st2] eqn:Hc; [|done].
    intros [= ->]. apply (Hclass RedisQueue _ 0 st2) in Hc; [done | discriminate].
Defined.

End SingletonProofs.

Module ChannelProofs.
Import PyStr PyExn Structures Channel.

(** ** The claim on the direction of a channel *)

(** C4, on the code.  [receive] on a dispatch channel raises the
    direction error, for [SlackDispatchChannel] and for every class that
    derives from [BaseDispatchChannel] and defines [send].  An inbound
    channel is no mirror image of it: [BaseInboundChannel] itself cannot be
    instantiated, [send] on a class that derives from it runs the [send] of
    that class, whatever it is, and it is [receive] that raises the
    direction error on an inbound channel. *)
Theorem channel_direction_C4 {response : Type} (name url : list N)
    (f : News → result response) (post : list N → News → result response)
    (news : News) :
  receive (SlackDispatchChannel url post) = Raised direction_error
  ∧ receive (subclass_with_send name BaseDispatchChannel f) = Raised direction_error
  ∧ instantiable (subclass_with_send name BaseDispatchChannel f) = true
  ∧ instantiable (@BaseInboundChannel response) = false
  ∧ instantiable (subclass_with_send name BaseInboundChannel f) = true
  ∧ send (subclass_with_send name BaseInboundChannel f) news = f news
  ∧ receive (subclass_with_send name BaseInboundChannel f) = Raised direction_error.
Proof. by split_and!. Qed.

End ChannelProofs.

Module ScraperProofs.
Import PyStr PyExn Structures Effects Scraper.

Section Scrape.

(** The keyword arguments handed down to the scrapers, and the truth value
    of their entry [verbose] (true when absent). *)
Context {kwargs : Type}.
Variable verbose : kwargs → bool.

(** [News.model_dump_json]. *)
Variable model_dump_json : News → list N.

Lemma BaseScraper_scrape_returns (self : scraper) (kw : kwargs) (w : world) :
  ∃ l', BaseScraper_scrape verbose self kw w
        = (Returned (results kw self),
           {| log := log w ++ l'; queue := queue w |})
        ∧ ∀ e, _scrape self kw = Raised e → ErrorOccurred (class_name self) e ∈ l'.
Proof.
  unfold BaseScraper_scrape, results, mbind, M_bind, bind, try_except, lift,
    write, modify, mret, M_ret, ret.
  destruct (verbose kw); simpl; destruct (_scrape self kw) as [l|e]; simpl.
  - exists [InfoStarting (class_name self)]. split; [done|]. by intros e.
  - exists [InfoStarting (class_name self); ErrorOccurred (class_name self) e;
            ErrorTraceback e].
    split; [by rewrite <- !app_assoc|]. intros e' [= <-]. set_solver.
  - exists []. split; [by rewrite app_nil_r; destruct w|]. by intros e.
  - exists [ErrorOccurred (class_name self) e; ErrorTraceback e].
    split; [by rewrite <- !app_assoc|]. intros e' [= <-]. set_solver.
Qed.

Lemma enqueue_each_spec (l : list News) (w : world) :
  enqueue_each model_dump_json l w
  = (Returned tt,
     {| log := log w;
        queue := {| Queue.queue_name := Queue.queue_name (queue w);
                    Queue.queue := Queue.queue (queue w) ++ (model_dump_json <$> l) |} |}).
Proof.
  revert w. induction l as [|n l IH]; intros w.
  - simpl. unfold mret, M_ret, ret. rewrite app_nil_r.
    by destruct w as [lg [nm q]].
  - simpl. unfold mbind, M_bind, bind, enqueue, modify. rewrite IH. simpl.
    by rewrite <- app_assoc.
Qed.

Lemma scrape_loop_spec (scrapers : list scraper) (limit : option Z) (kw : kwargs)
    (acc : list News) (w : world) :
  ∃ l',
    scrape_loop verbose model_dump_json scrapers limit kw acc w
    = (Returned (acc ++ concat ((λ s, kept limit (results kw s)) <$> scrapers)),
       {| log := log w ++ l';
          queue := {| Queue.queue_name := Queue.queue_name (queue w);
                      Queue.queue :=
                        Queue.queue (queue w)
                        ++ (model_dump_json
                              <$> concat ((λ s, kept limit (results kw s)) <$> scrapers)) |} |})
    ∧ ∀ s e, s ∈ scrapers → _scrape s kw = Raised e →
             ErrorOccurred (class_name s) e ∈ l'.
Proof.
  revert acc w. induction scrapers as [|s rest IH]; intros acc w.
  - exists []. split; [|set_solver]. simpl. unfold mret, M_ret, ret.
    rewrite !app_nil_r. by destruct w as [lg [nm q]].
  - destruct (BaseScraper_scrape_returns s kw w) as (l1 & Hs & Herr).
    simpl scrape_loop. unfold mbind, M_bind, bind at 1. rewrite Hs.
    unfold bind at 1, write at 1, modify. unfold bind at 1.
    fold (kept limit (results kw s)).
    rewrite enqueue_each_spec. cbn [log queue].
    edestruct (IH (acc ++ kept limit (results kw s))) as (l2 & -> & Herr2).
    cbn [log queue Queue.queue_name Queue.queue].
    exists (l1 ++ [DebugScraped (length (results kw s)) (scraper_name s)] ++ l2).
    split.
    + rewrite fmap_cons, concat_cons, fmap_app, <- !app_assoc. done.
    + intros s' e [->|Hin]%elem_of_cons He.
      * apply elem_of_app. left. by apply Herr.
      * rewrite !elem_of_app. right. right. by eapply Herr2.
Qed.

Lemma ScraperFactory_scrape_spec (scrapers : list scraper) (limit : option Z)
    (kw : kwargs) (w : world) :
  ∃ l',
    ScraperFactory_scrape verbose model_dump_json scrapers limit kw w
    = (Returned (concat ((λ s, kept limit (results kw s)) <$> scrapers)),
       {| log := log w ++ l';
          queue := {| Queue.queue_name := Queue.queue_name (queue w);
                      Queue.queue :=
                        Queue.queue (queue w)
                        ++ (model_dump_json
                              <$> concat ((λ s, kept limit (results kw s)) <$> scrapers)) |} |})
    ∧ ∀ s e, s ∈ scrapers → _scrape s kw = Raised e →
             ErrorOccurred (class_name s) e ∈ l'.
Proof.
  unfold ScraperFactory_scrape, mbind, M_bind.
  unfold bind at 1, write at 1, modify. unfold bind at 1.
  edestruct (scrape_loop_spec scrapers limit kw []) as (l2 & -> & Herr).
  cbn [log queue app].
  eexists ([DebugScraping (length scrapers) limit] ++ l2 ++ [_]). split.
  - unfold bind, write, modify, mret, M_ret, ret. cbn [log queue].
    by rewrite <- !app_assoc.
  - intros s e Hin He. rewrite !elem_of_app. right. left. by eapply Herr.
Qed.

Lemma kept_nil (limit : option Z) : kept limit [] = [].
Proof.
  destruct limit as [k|]; [|done]. unfold kept, slice_to.
  destruct (0 <=? k)%Z; apply take_nil.
Qed.

Lemma results_filter_survives (limit : option Z) (kw : kwargs)
    (scrapers : list scraper) :
  concat ((λ s, kept limit (results kw s)) <$> filter (λ s, survives kw s = true) scrapers)
  = concat ((λ s, kept limit (results kw s)) <$> scrapers).
Proof.
  induction scrapers as [|s rest IH]; [done|].
  rewrite filter_cons. case_decide as Hs.
  - by rewrite !fmap_cons, !concat_cons, IH.
  - rewrite fmap_cons, concat_cons, IH.
    unfold survives, results in *. destruct (_scrape s kw); [done|].
    by rewrite kept_nil.
Qed.

End Scrape.

(** ** The claim on the isolation of scrapers *)

(** C6.  Whatever the scrapers, the limit and the state before the run:
    for a scraper whose [_scrape] raises, the wrapper [scrape] returns the
    empty list and logs the error; the run of the factory returns, without
    raising, the results of the scrapers whose [_scrape] returned, each cut
    to the limit, in the order of the scrapers: the same list as a run
    over those scrapers alone, and with no limit exactly their results; the
    log of the run holds the error of every scraper that failed; and the
    queue receives the dump of every record returned. *)
Theorem scraper_isolation_C6 {kwargs : Type} (verbose : kwargs → bool)
    (model_dump_json : News → list N) (scrapers : list (@scraper kwargs))
    (limit : option Z) (kw : kwargs) (w : world) :
  (∀ s e, _scrape s kw = Raised e →
     (BaseScraper_scrape verbose s kw w).1 = Returned []
     ∧ ErrorOccurred (class_name s) e ∈ log (BaseScraper_scrape verbose s kw w).2)
  ∧ (ScraperFactory_scrape verbose model_dump_json scrapers limit kw w).1
    = Returned (concat ((λ s, kept limit (results kw s))
                          <$> filter (λ s, survives kw s = true) scrapers))
  ∧ (ScraperFactory_scrape verbose model_dump_json scrapers limit kw w).1
    = (ScraperFactory_scrape verbose model_dump_json
         (filter (λ s, survives kw s = true) scrapers) limit kw w).1
  ∧ (ScraperFactory_scrape verbose model_dump_json scrapers None kw w).1
    = Returned (concat (results kw <$> filter (λ s, survives kw s = true) scrapers))
  ∧ (∀ s e, s ∈ scrapers → _scrape s kw = Raised e →
       ErrorOccurred (class_name s) e
       ∈ log (ScraperFactory_scrape verbose model_dump_json scrapers limit kw w).2)
  ∧ (∀ news_list,
       (ScraperFactory_scrape verbose model_dump_json scrapers limit kw w).1
         = Returned news_list →
       Queue.queue (queue (ScraperFactory_scrape verbose model_dump_json
                             scrapers limit kw w).2)
       = Queue.queue (queue w) ++ (model_dump_json <$> news_list)).
Proof.
  destruct (ScraperFactory_scrape_spec verbose model_dump_json scrapers limit kw w)
    as (l & Hrun & Herr).
  split_and!.
  - intros s e He.
    destruct (BaseScraper_scrape_returns verbose s kw w) as (l1 & -> & Herr1).
    unfold results. rewrite He. split; [done|]. simpl.
    apply elem_of_app. right. by apply Herr1.
  - by rewrite Hrun, results_filter_survives.
  - destruct (ScraperFactory_scrape_spec verbose model_dump_json
                (filter (λ s, survives kw s = true) scrapers) limit kw w)
      as (l2 & -> & _).
    by rewrite Hrun, results_filter_survives.
  - destruct (ScraperFactory_scrape_spec verbose model_dump_json scrapers None kw w)
      as (l2 & -> & _).
    by rewrite <- (results_filter_survives None).
  - intros s e Hin He. rewrite Hrun. simpl.
    apply elem_of_app. right. by eapply Herr.
  - intros news_list. rewrite Hrun. by intros [= <-].
Qed.

Lemma scraper_isolation_C6_witness :
  (ScraperFactory_scrape (λ _ : unit, true) id
     [working_scraper; failing_scraper] None tt
     {| log := []; queue := Queue.ListQueue_init (py "llm-queue") |}).1
  = Returned [news (py "1") (py "HackerNews") (py "one");
              news (py "2") (py "HackerNews") (py "two")]
  ∧ ErrorOccurred (py "TechCrunchScraper") (Exception ValueError (py "boom"))
    ∈ log (ScraperFactory_scrape (λ _ : unit, true) id
             [working_scraper; failing_scraper] None tt
             {| log := []; queue := Queue.ListQueue_init (py "llm-queue") |}).2.
Proof.
  destruct (scraper_isolation_C6 (λ _ : unit, true) id
              [working_scraper; failing_scraper] None tt
              {| log := []; queue := Queue.ListQueue_init (py "llm-queue") |})
    as (_ & _ & _ & Hnone & Hlog & _).
  split.
  - exact Hnone.
  - apply (Hlog failing_scraper (Exception ValueError (py "boom")));
      [set_solver | reflexivity].
Defined.

End ScraperProofs.

Module ProviderProofs.
Import PyStr PyExn Effects Provider.

Section BaseLLMProvider.

(** [str.lower]. *)
Variable lower : list N → list N.

(** The provider's [self._client]. *)
Variable self_client : client.

Lemma call_body_absent (model_name user_prompt : list N) (model_list : list model)
    (w : world) :
  models_list self_client = Returned model_list →
  absent lower model_name model_list →
  call_body lower self_client model_name user_prompt w
  = (Raised (model_not_found model_name),
     {| events := events w ++ [ListModels];
        log := log w ++ [ErrorModelNotFound model_name] |}).
Proof.
  intros Hlist (keys & Hkeys & Habs).
  unfold call_body, _check_model_exists, mbind, M_bind, bind, emit, write,
    modify, lift, mret, M_ret, ret, raise.
  simpl. rewrite Hlist, Hkeys. simpl.
  by rewrite bool_decide_eq_false_2.
Qed.

End BaseLLMProvider.

(** ** The claims on the providers *)

(** C3, on the code.  When the catalogue lists no entry for [model_name],
    the body of [call] raises [ModelNotFoundError] after one listing of the
    catalogue and no generation request.  Under its decorators, [call]
    retries that failure: the catalogue is listed twice, with a pause in
    between, still no generation request is made, and the caller receives
    tenacity's [RetryError] around the [ModelNotFoundError]. *)
Theorem call_model_not_found_C3 (lower : list N → list N) (self_client : client)
    (model_name user_prompt : list N) (model_list : list model) (w : world) :
  models_list self_client = Returned model_list →
  absent lower model_name model_list →
  call_body lower self_client model_name user_prompt w
  = (Raised (model_not_found model_name),
     {| events := events w ++ [ListModels];
        log := log w ++ [ErrorModelNotFound model_name] |})
  ∧ call lower self_client model_name user_prompt w
    = (Raised (RetryError (model_not_found model_name)),
       {| events := events w ++ [ListModels; Sleep; ListModels];
          log := log w ++ [ErrorModelNotFound model_name;
                           ErrorModelNotFound model_name] |}).
Proof.
  intros Hlist Habs. split; [by eapply call_body_absent|].
  unfold call, retry, timeit, try_except, mbind, M_bind.
  unfold bind at 1.
  rewrite (call_body_absent lower self_client _ _ _ w Hlist Habs).
  unfold bind at 1, emit at 1, modify. cbn [events log].
  unfold bind at 1.
  rewrite (call_body_absent lower self_client _ _ _ _ Hlist Habs).
  unfold raise. cbn [events log]. by rewrite <- !app_assoc.
Qed.

(** The model [gpt-5] asked of the stub client. *)
Lemma call_model_not_found_C3_witness :
  call ascii_lower stub_client (py "gpt-5") (py "article")
    {| events := []; log := [] |}
  = (Raised (RetryError (model_not_found (py "gpt-5"))),
     {| events := [ListModels; Sleep; ListModels];
        log := [ErrorModelNotFound (py "gpt-5"); ErrorModelNotFound (py "gpt-5")] |}).
Proof.
  apply (call_model_not_found_C3 ascii_lower stub_client (py "gpt-5") (py "article")
           [ {| name := Some (py "Google: Gemini Flash 1.5") |};
             {| name := Some (py "OpenAI: GPT-4o") |} ]
           {| events := []; log := [] |}).
  - reflexivity.
  - eexists. split; [reflexivity|]. apply (bool_decide_unpack _). by vm_compute.
Defined.

(** C8, as amended.  For every name absent from [PROVIDERS],
    [get_provider] raises [ModelNotFoundError] with the message Provider
    <name> not found., which differs from the message of every model-absent
    failure; for every name in [PROVIDERS] it returns the class registered
    under it, [OpenRouterProvider] for openrouter and [OpenAIProvider] for
    openai. *)
Theorem get_provider_C8 (provider_name : list N) :
  (PROVIDERS !! provider_name = None →
     get_provider provider_name
     = Raised (Exception ModelNotFoundError
                 (py "Provider " ++ provider_name ++ py " not found.")))
  ∧ (∀ provider, PROVIDERS !! provider_name = Some provider →
       get_provider provider_name = Returned provider)
  ∧ (∀ model_name,
       provider_not_found provider_name ≠ model_not_found model_name)
  ∧ get_provider (py "openrouter") = Returned OpenRouterProvider
  ∧ get_provider (py "openai") = Returned OpenAIProvider.
Proof.
  split_and!; try done.
  - intros H. unfold get_provider. by rewrite H.
  - intros p H. unfold get_provider. by rewrite H.
Qed.

Lemma get_provider_C8_witness :
  get_provider (py "anthropic")
  = Raised (Exception ModelNotFoundError (py "Provider anthropic not found.")).
Proof.
  destruct (get_provider_C8 (py "anthropic")) as (Hnone & _).
  apply Hnone. reflexivity.
Defined.

(** The claim as written fails: the exception raised for an unknown
    provider is of the class raised for a model absent from the catalogue,
    so that a handler for [ModelNotFoundError] catches both. *)
Lemma get_provider_C8_counterexample :
  get_provider (py "anthropic") = Raised (provider_not_found (py "anthropic"))
  ∧ (call_body ascii_lower stub_client (py "gpt-5") (py "article")
       {| events := []; log := [] |}).1
    = Raised (model_not_found (py "gpt-5"))
  ∧ class_of (provider_not_found (py "anthropic"))
    = class_of (model_not_found (py "gpt-5"))
  ∧ isinstance (provider_not_found (py "anthropic")) ModelNotFoundError = true.
Proof. by split_and!. Qed.

End ProviderProofs.

(* ===================================================================== *)
(** * Further properties of the code                                      *)
(* ===================================================================== *)

Module NormalizeLaws.
Import PyStr Normalize PyStrProofs NormalizeProofs SummarizerProofs.

Lemma no_repeated_space_collapse (s : list N) :
  no_repeated_space (collapse s) = true.
Proof.
  induction s as [|c s IH]; [done|]. destruct s as [|d r]; [done|].
  rewrite collapse_unfold.
  destruct (isspace c && (d =? c)%N) eqn:Hm; [exact IH|].
  destruct (collapse_head d r) as [t Ht]. rewrite Ht in IH |- *.
  change (negb (isspace c && (d =? c)%N) && no_repeated_space (d :: t) = true).
  by rewrite Hm, IH.
Qed.

Lemma no_repeated_space_app_r (a b : list N) :
  no_repeated_space (a ++ b) = true → no_repeated_space b = true.
Proof.
  induction a as [|c a IH]; [done|].
  change ((c :: a) ++ b) with (c :: (a ++ b)).
  destruct (a ++ b) as [|d r] eqn:Hab.
  - apply app_eq_nil in Hab as [_ ->]. done.
  - change (no_repeated_space (c :: d :: r))
      with (negb (isspace c && (d =? c)%N) && no_repeated_space (d :: r)).
    intros [_ H]%andb_true_iff. by apply IH.
Qed.

Lemma no_repeated_space_app_l (a b : list N) :
  no_repeated_space (a ++ b) = true → no_repeated_space a = true.
Proof.
  induction a as [|c a IH]; [done|].
  destruct a as [|d a]; [done|].
  change ((c :: d :: a) ++ b) with (c :: d :: (a ++ b)).
  change (no_repeated_space (c :: d :: a ++ b))
    with (negb (isspace c && (d =? c)%N) && no_repeated_space ((d :: a) ++ b)).
  change (no_repeated_space (c :: d :: a))
    with (negb (isspace c && (d =? c)%N) && no_repeated_space (d :: a)).
  intros [-> H]%andb_true_iff. by rewrite IH.
Qed.

Lemma strip_strip (s : list N) : strip (strip s) = strip s.
Proof.
  pose proof (strip_padded [] (strip s) [] (Forall_nil_2 _) (Forall_nil_2 _)
                (strip_trimmed s)) as H.
  by rewrite app_nil_r in H.
Qed.

Lemma filter_nonspace_all_space (l : list N) :
  Forall (λ c, isspace c = true) l → filter (λ c, isspace c = false) l = [].
Proof.
  induction 1 as [|c l Hc _ IH]; [done|].
  rewrite filter_cons_False; [done|]. by rewrite Hc.
Qed.

Lemma filter_nonspace_collapse (s : list N) :
  filter (λ c, isspace c = false) (collapse s)
  = filter (λ c, isspace c = false) s.
Proof.
  induction s as [|c s IH]; [done|]. destruct s as [|d r]; [done|].
  rewrite collapse_unfold.
  destruct (isspace c && (d =? c)%N) eqn:Hm.
  - apply andb_true_iff in Hm as [Hc _].
    rewrite IH. symmetry. apply filter_cons_False. by rewrite Hc.
  - rewrite !(filter_cons _ c). by rewrite IH.
Qed.

Lemma filter_nonspace_strip (s : list N) :
  filter (λ c, isspace c = false) (strip s)
  = filter (λ c, isspace c = false) s.
Proof.
  destruct (strip_split s) as (l & r & Hs & Hl & Hr).
  transitivity (filter (λ c, isspace c = false) (l ++ strip s ++ r));
    [|by rewrite <- Hs].
  rewrite !filter_app.
  by rewrite (filter_nonspace_all_space l), (filter_nonspace_all_space r),
       app_nil_r.
Qed.

(** X1.  [Summarizer.normalize_text] is idempotent: normalising a text that
    has been normalised changes nothing, so that a text goes through the
    substitution and the strip unchanged once it has gone through them. *)
Theorem normalize_text_idempotent (text : list N) :
  normalize_text (normalize_text text) = normalize_text text.
Proof.
  rewrite !normalize_text_collapse.
  destruct (strip_split (collapse text)) as (l & r & Hs & _).
  assert (Hn : no_repeated_space (strip (collapse text)) = true).
  { pose proof (no_repeated_space_collapse text) as H. rewrite Hs in H.
    apply no_repeated_space_app_r in H. by apply no_repeated_space_app_l in H. }
  rewrite (collapse_no_repeat _ Hn). apply strip_strip.
Qed.

(** X2.  [Summarizer.normalize_text] removes whitespace only: the code
    points of the text that are not whitespace are all kept, in their
    order, and the text never grows. *)
Theorem normalize_text_keeps_visible (text : list N) :
  filter (λ c, isspace c = false) (normalize_text text)
  = filter (λ c, isspace c = false) text
  ∧ length (normalize_text text) ≤ length text.
Proof.
  rewrite normalize_text_collapse. split.
  - by rewrite filter_nonspace_strip, filter_nonspace_collapse.
  - pose proof (strip_length (collapse text)).
    pose proof (collapse_length text). lia.
Qed.

End NormalizeLaws.

Module ExtractLaws.
Import PyStr PyExn Json Normalize Summarizer.
Import PyStrProofs NormalizeProofs SummarizerProofs.

#[local] Arguments find_fence : simpl never.
#[local] Arguments startswith : simpl nomatch.

(** The leftmost fenced block, by the shape of the text. *)
Lemma fenced_body_shape (s b : list N) :
  fenced_body s = Some b
  ↔ ∃ a c, s = a ++ fence ++ b ++ fence ++ c ∧ fence_free a ∧ fence_free b.
Proof.
  split.
  - unfold fenced_body.
    destruct (find_fence s) as [[a r]|] eqn:Hs; [|done].
    destruct (find_fence r) as [[b' c]|] eqn:Hr; [|done]. intros [= ->].
    exists a, c.
    pose proof (find_fence_sound _ _ _ Hs) as Hs'.
    pose proof (find_fence_sound _ _ _ Hr) as Hr'.
    split; [by rewrite Hs', Hr'|].
    split; by eapply find_fence_fence_free.
  - intros (a & c & -> & Ha & Hb). unfold fenced_body.
    by rewrite (find_fence_first a _ Ha), (find_fence_first b _ Hb).
Qed.

Lemma payload_of_body_raises (b : list N) (e : exn) :
  payload_of_body b = Raised e
  ↔ b = json_tag
    ∧ e = Exception AttributeError (py "'NoneType' object has no attribute 'strip'").
Proof.
  unfold payload_of_body. split.
  - destruct (startswith json_tag b) eqn:Hb; [|done].
    pose proof (startswith_split _ _ Hb) as Hs.
    change (length json_tag) with 4 in Hs.
    destruct (drop 4 b) as [|c g]; [|done].
    intros [= <-]. by rewrite Hs.
  - by intros [-> ->].
Qed.

Lemma payload_of_body_returns (b : list N) (p : list N) :
  payload_of_body b = Returned (Some p) →
  ∃ t g, b = t ++ g ∧ p = strip g.
Proof.
  unfold payload_of_body.
  destruct (startswith json_tag b) eqn:Hb.
  - pose proof (startswith_split _ _ Hb) as Hs.
    change (length json_tag) with 4 in Hs.
    destruct (drop 4 b) as [|c g]; [done|]. intros [= <-].
    by exists json_tag, (c :: g).
  - intros [= <-]. by exists [], b.
Qed.

Lemma find_fence_strip_None (g : list N) :
  find_fence g = None → find_fence (strip g) = None.
Proof.
  destruct (strip_split g) as (l & r & Hg & _). intros H. rewrite Hg in H.
  apply find_fence_None_suffix in H. by apply find_fence_None_prefix in H.
Qed.

(** X3.  [Summarizer.extract_json] raises exactly on a text whose leftmost
    fenced block is the bare tag [json], three backticks straight after it:
    the alternative without the tag then matches with an empty first group,
    and [strip] is called on the group that is [None].  The exception is
    that [AttributeError]; normalising the text first neither causes nor
    cures it; and [summarize] answers such a response with the empty
    dict. *)
Theorem extract_json_raises_on_bare_tag (text : list N) :
  ((∃ e, extract_json text = Raised e)
   ↔ ∃ a c, text = a ++ fence ++ json_tag ++ fence ++ c ∧ fence_free a)
  ∧ (∀ e, extract_json text = Raised e →
          e = Exception AttributeError
                (py "'NoneType' object has no attribute 'strip'"))
  ∧ (∀ e, extract_json (normalize_text text) = Raised e
          ↔ extract_json text = Raised e)
  ∧ (∀ json_loads provider_call model prompt e,
       provider_call model prompt = Returned (Some text) →
       extract_json text = Raised e →
       summarize json_loads provider_call model prompt = Returned empty_dict).
Proof.
  assert (Hnorm : ∀ e, extract_json (normalize_text text) = Raised e
                       ↔ extract_json text = Raised e).
  { intros e. rewrite extract_json_normalize.
    destruct (extract_json text) as [[p|]|e']; [|done..].
    split; discriminate. }
  split_and!.
  - rewrite extract_json_fenced_body. split.
    + intros [e He]. destruct (fenced_body text) as [b|] eqn:Hb; [|done].
      apply payload_of_body_raises in He as [-> _].
      apply fenced_body_shape in Hb as (a & c & Ht & Ha & _). by exists a, c.
    + intros (a & c & Ht & Ha).
      assert (Hb : fenced_body text = Some json_tag).
      { apply fenced_body_shape. by exists a, c. }
      rewrite Hb. by eexists.
  - intros e. rewrite extract_json_fenced_body.
    destruct (fenced_body text) as [b|]; [|done].
    by intros [_ ->]%payload_of_body_raises.
  - exact Hnorm.
  - intros jl call model prompt e Hcall He. apply Hnorm in He.
    unfold summarize, summarize_response. by rewrite Hcall, He.
Qed.

(** X4.  A payload returned by [Summarizer.extract_json] neither begins nor
    ends with whitespace, holds no fence, and is shorter than the text by
    the two fences at least. *)
Theorem extract_json_payload_trimmed (text p : list N) :
  extract_json text = Returned (Some p) →
  trimmed p ∧ find_fence p = None ∧ length p + 6 ≤ length text.
Proof.
  rewrite extract_json_fenced_body.
  destruct (fenced_body text) as [b|] eqn:Hb; [|done]. intros Hp.
  apply payload_of_body_returns in Hp as (t & g & -> & ->).
  apply fenced_body_shape in Hb as (a & c & -> & _ & Hb).
  split_and!.
  - apply strip_trimmed.
  - apply find_fence_strip_None.
    apply find_fence_None_prefix in Hb. by apply find_fence_None_suffix in Hb.
  - pose proof (strip_length g). rewrite !length_app.
    change (length fence) with 3. lia.
Qed.

Lemma extract_json_payload_trimmed_witness :
  trimmed (py "{}") ∧ find_fence (py "{}") = None
  ∧ length (py "{}") + 6
    ≤ length (py "Here: " ++ fence ++ json_tag ++ py " {} " ++ fence ++ py " bye").
Proof.
  apply (extract_json_payload_trimmed
           (py "Here: " ++ fence ++ json_tag ++ py " {} " ++ fence ++ py " bye")
           (py "{}")).
  reflexivity.
Defined.

(** X5.  What stands before the first fenced block and after it plays no
    part: when no fence begins in the text before the block nor in its
    body, [Summarizer.extract_json] gives what it gives on the block alone. *)
Theorem extract_json_ignores_surroundings (pre body post : list N) :
  fence_free pre → fence_free body →
  extract_json (pre ++ fence ++ body ++ fence ++ post)
  = extract_json (fence ++ body ++ fence).
Proof.
  intros Hpre Hbody. rewrite !extract_json_fenced_body.
  assert (H1 : fenced_body (pre ++ fence ++ body ++ fence ++ post) = Some body).
  { apply fenced_body_shape. by exists pre, post. }
  assert (H2 : fenced_body (fence ++ body ++ fence) = Some body).
  { apply fenced_body_shape. exists [], []. by rewrite app_nil_r. }
  by rewrite H1, H2.
Qed.

Lemma extract_json_ignores_surroundings_witness :
  extract_json (py "Here: " ++ fence ++ py "json{}" ++ fence ++ py "``` bye")
  = extract_json (fence ++ py "json{}" ++ fence).
Proof.
  apply (extract_json_ignores_surroundings
           (py "Here: ") (py "json{}") (py "``` bye")); reflexivity.
Defined.

End ExtractLaws.

Module QueueAgreement.
Import PyStr Queue QueueOps QueueProofs.

Section Items.

Context {A : Type}.

Lemma rpop_store_nil (name : list N) (db : gmap (list N) (list A)) :
  rpop name (store name [] db) = (None, store name [] db).
Proof. unfold rpop. simpl. by rewrite lookup_delete_eq. Qed.

Lemma llen_store (name : list N) (l : list A) (db : gmap (list N) (list A)) :
  llen name (store name l db) = length l.
Proof.
  unfold llen. destruct l; simpl.
  - by rewrite lookup_delete_eq.
  - by rewrite lookup_insert_eq.
Qed.

Lemma redis_clear_store (name : list N) (l : list A) (db : gmap (list N) (list A)) :
  redis_clear name (store name l db) = store name [] db.
Proof.
  unfold redis_clear. destruct l; simpl;
    by rewrite ?delete_delete_eq, ?delete_insert_eq.
Qed.

Lemma store_fresh (name : list N) (db : gmap (list N) (list A)) :
  db !! name = None → store name [] db = db.
Proof. intros H. simpl. by rewrite delete_id. Qed.

Lemma store_lookup_ne (name key : list N) (l : list A)
    (db : gmap (list N) (list A)) :
  key ≠ name → store name l db !! key = db !! key.
Proof.
  intros Hne. destruct l; simpl.
  - by rewrite lookup_delete_ne.
  - by rewrite lookup_insert_ne.
Qed.

(** One call on the Redis backend follows the call on the list backend: the
    list of the server is the deque, its right end first. *)
Lemma redis_call_store (name : list N) (o : @op A) (q : @ListQueue A)
    (db : gmap (list N) (list A)) :
  db !! name = None →
  redis_call name o (store name (reverse (queue q)) db)
  = ((list_call o q).1, store name (reverse (queue (list_call o q).2)) db).
Proof.
  intros Hdb. destruct q as [n l]. destruct o as [x| | |]; cbn [queue].
  - unfold redis_call, list_call, redis_enqueue, enqueue. cbn [fst snd queue].
    rewrite lpush_store by done. by rewrite reverse_app.
  - unfold redis_call, list_call, redis_dequeue, dequeue. cbn [queue].
    destruct l as [|x l].
    + by rewrite rpop_store_nil.
    + by rewrite reverse_cons, rpop_store.
  - unfold redis_call, list_call, redis_size, size. cbn [fst snd queue].
    by rewrite llen_store, length_reverse.
  - unfold redis_call, list_call, clear. cbn [fst snd queue].
    by rewrite redis_clear_store.
Qed.

Lemma redis_run_store (name : list N) (ops : list (@op A)) (q : @ListQueue A)
    (db : gmap (list N) (list A)) :
  db !! name = None →
  redis_run name ops (store name (reverse (queue q)) db)
  = ((list_run ops q).1, store name (reverse (queue (list_run ops q).2)) db).
Proof.
  intros Hdb. revert q. induction ops as [|o ops IH]; intros q; [done|].
  cbn [redis_run list_run]. rewrite redis_call_store by done.
  destruct (list_call o q) as [a q'] eqn:Hq. cbn [fst snd].
  rewrite IH. by destruct (list_run ops q').
Qed.

Lemma redis_call_lookup_ne (name key : list N) (o : @op A)
    (db : gmap (list N) (list A)) :
  key ≠ name → (redis_call name o db).2 !! key = db !! key.
Proof.
  intros Hne. destruct o as [x| | |]; cbn [redis_call].
  - cbn [snd]. unfold redis_enqueue, lpush. by rewrite lookup_insert_ne.
  - unfold redis_dequeue, rpop.
    destruct (db !! name) as [[|v l]|]; cbn [snd]; [done | | done].
    by apply store_lookup_ne.
  - done.
  - cbn [snd]. unfold redis_clear. by rewrite lookup_delete_ne.
Qed.

Lemma dequeue_n_any (k : nat) (name : list N) (xs : list A) :
  dequeue_n k {| queue_name := name; queue := xs |}
  = ((Some <$> take k xs) ++ replicate (k - length xs) None,
     {| queue_name := name; queue := drop k xs |}).
Proof.
  revert xs. induction k as [|k IH]; intros xs; [done|].
  destruct xs as [|x xs].
  - cbn [dequeue_n]. unfold dequeue. cbn [queue]. rewrite IH.
    simpl. by rewrite take_nil, drop_nil, Nat.sub_0_r.
  - cbn [dequeue_n]. unfold dequeue. cbn [queue]. by rewrite IH.
Qed.

Lemma redis_dequeue_n_any (k : nat) (name : list N) (xs : list A)
    (db : gmap (list N) (list A)) :
  redis_dequeue_n k name (store name (reverse xs) db)
  = ((Some <$> take k xs) ++ replicate (k - length xs) None,
     store name (reverse (drop k xs)) db).
Proof.
  revert xs. induction k as [|k IH]; intros xs; [done|].
  destruct xs as [|x xs].
  - cbn [redis_dequeue_n]. unfold redis_dequeue.
    change (reverse []) with (@nil A). rewrite rpop_store_nil.
    change (@nil A) with (reverse (@nil A)) at 1. rewrite IH.
    simpl. by rewrite take_nil, drop_nil, Nat.sub_0_r.
  - cbn [redis_dequeue_n]. unfold redis_dequeue.
    rewrite reverse_cons, rpop_store. by rewrite IH.
Qed.

End Items.

(** X6.  The two backends give the same answers.  For every sequence of
    calls to [enqueue], [dequeue], [size] and [clear], the Redis queue on a
    server that does not hold its key returns, call by call, what the list
    queue returns, and the list of its key is the deque of the list queue,
    the right end first (the key is absent when the deque is empty).  Items
    are compared as they were enqueued: the encoding of an item by the
    Redis client is not part of the model. *)
Theorem backends_agree {A : Type} (name : list N) (ops : list (@op A))
    (db : gmap (list N) (list A)) :
  db !! name = None →
  (redis_run name ops db).1 = (list_run ops (ListQueue_init name)).1
  ∧ (redis_run name ops db).2
    = store name (reverse (queue (list_run ops (ListQueue_init name)).2)) db.
Proof.
  intros Hdb.
  pose proof (redis_run_store name ops (ListQueue_init name) db Hdb) as H.
  change (reverse (queue (ListQueue_init name))) with (@nil A) in H.
  rewrite (store_fresh name db Hdb) in H. by rewrite H.
Qed.

Lemma backends_agree_witness :
  (redis_run (py "q")
     [Size; Dequeue; Enqueue (py "a"); Enqueue (py "b"); Size; Dequeue;
      Clear; Dequeue; Enqueue (py "c"); Size] ∅).1
  = [Count 0; Item None; Nothing; Nothing; Count 2; Item (Some (py "a"));
     Nothing; Item None; Nothing; Count 1]
  ∧ (redis_run (py "q")
       [Size; Dequeue; Enqueue (py "a"); Enqueue (py "b"); Size; Dequeue;
        Clear; Dequeue; Enqueue (py "c"); Size] ∅).2
    = store (py "q") [py "c"] ∅.
Proof.
  apply (backends_agree (py "q")
           [Size; Dequeue; Enqueue (py "a"); Enqueue (py "b"); Size; Dequeue;
            Clear; Dequeue; Enqueue (py "c"); Size] ∅).
  apply lookup_empty.
Defined.

(** X7.  A Redis queue touches its own key only: whatever calls are made on
    the queue named [name], every other key of the server holds what it
    held before. *)
Theorem redis_queue_leaves_other_keys {A : Type} (name key : list N)
    (ops : list (@op A)) (db : gmap (list N) (list A)) :
  key ≠ name → (redis_run name ops db).2 !! key = db !! key.
Proof.
  intros Hne. revert db. induction ops as [|o ops IH]; intros db; [done|].
  cbn [redis_run].
  pose proof (redis_call_lookup_ne name key o db Hne) as Ho.
  destruct (redis_call name o db) as [a db'].
  specialize (IH db'). destruct (redis_run name ops db') as [answers db''].
  cbn [snd] in *. by rewrite IH.
Qed.

Lemma redis_queue_leaves_other_keys_witness :
  (redis_run (py "q") [Enqueue (py "a"); Dequeue; Dequeue; Enqueue (py "b"); Clear]
     {[ py "q" := [py "z"]; py "other" := [py "x"; py "y"] ]}).2 !! py "other"
  = ({[ py "q" := [py "z"]; py "other" := [py "x"; py "y"] ]}
       : gmap (list N) (list (list N))) !! py "other".
Proof.
  apply (redis_queue_leaves_other_keys (py "q") (py "other")). discriminate.
Defined.

(** X8.  Dequeueing past the end.  After the items [xs] were enqueued on a
    fresh queue, [k] calls to [dequeue], for any [k], return the first [k]
    items and then [None] for every call made on the empty queue, on both
    backends; once the items are out the list queue is as it was created,
    and the server is as it was before the first call. *)
Theorem dequeue_past_the_end {A : Type} (name : list N) (xs : list A) (k : nat)
    (db : gmap (list N) (list A)) :
  db !! name = None →
  (dequeue_n k (fold_left enqueue xs (ListQueue_init name))).1
    = (Some <$> take k xs) ++ replicate (k - length xs) None
  ∧ (redis_dequeue_n k name (fold_left (redis_enqueue name) xs db)).1
    = (Some <$> take k xs) ++ replicate (k - length xs) None
  ∧ (length xs ≤ k →
     (dequeue_n k (fold_left enqueue xs (ListQueue_init name))).2
       = ListQueue_init name
     ∧ (redis_dequeue_n k name (fold_left (redis_enqueue name) xs db)).2 = db).
Proof.
  intros Hdb.
  assert (Hq : fold_left enqueue xs (ListQueue_init name)
               = {| queue_name := name; queue := xs |})
    by by rewrite enqueue_all_queue.
  assert (Hr : fold_left (redis_enqueue name) xs db = store name (reverse xs) db).
  { rewrite <- (store_fresh name db Hdb) at 1.
    by rewrite redis_enqueue_all, app_nil_r. }
  rewrite Hq, Hr, dequeue_n_any, redis_dequeue_n_any. cbn [fst snd].
  split_and!; try done.
  intros Hk. rewrite !drop_ge by done.
  split; [done | by apply store_fresh].
Qed.

Lemma dequeue_past_the_end_witness :
  (dequeue_n 4 (fold_left enqueue [py "a"; py "b"] (ListQueue_init (py "q")))).1
    = [Some (py "a"); Some (py "b"); None; None]
  ∧ (redis_dequeue_n 4 (py "q")
       (fold_left (redis_enqueue (py "q")) [py "a"; py "b"] ∅)).1
    = [Some (py "a"); Some (py "b"); None; None]
  ∧ (redis_dequeue_n 4 (py "q")
       (fold_left (redis_enqueue (py "q")) [py "a"; py "b"] ∅)).2 = ∅.
Proof.
  destruct (dequeue_past_the_end (py "q") [py "a"; py "b"] 4 ∅)
    as (Hl & Hr & Hend); [apply lookup_empty|].
  split_and!; [exact Hl | exact Hr |].
  apply Hend. simpl. lia.
Defined.

End QueueAgreement.

Module SingletonStability.
Import PyStr PyExn Singleton QueueFactory SingletonProofs.

Section Call.

Variable init : queue_class → call_args → option exn.

(** A call never removes nor replaces an entry of the registry. *)
Lemma call_keeps (cls : queue_class) (a : call_args) (st : registry)
    (k : queue_class * list N) (r : nat) :
  instances st !! k = Some r → instances (call init cls a st).2 !! k = Some r.
Proof.
  intros Hk. unfold call.
  destruct (instances st !! (cls, singleton_key a)) as [r'|] eqn:Hc; [done|].
  destruct (init cls a); [done|]. cbn [snd instances].
  rewrite lookup_insert_ne; [done|]. intros <-. congruence.
Qed.

Lemma run_calls_keeps (calls : list (queue_class * call_args)) (st : registry)
    (k : queue_class * list N) (r : nat) :
  instances st !! k = Some r → instances (run_calls init calls st) !! k = Some r.
Proof.
  revert st. induction calls as [|[cls a] calls IH]; intros st Hk; [done|].
  cbn [run_calls]. by apply IH, call_keeps.
Qed.

Lemma call_registered (cls : queue_class) (a : call_args) (st : registry)
    (r : nat) :
  instances st !! (cls, singleton_key a) = Some r →
  call init cls a st = (Returned r, st).
Proof. intros H. unfold call. by rewrite H. Qed.

Lemma call_raised (cls : queue_class) (a : call_args) (st st1 : registry)
    (e : exn) :
  call init cls a st = (Raised e, st1) →
  st1 = st ∧ init cls a = Some e ∧ instances st !! (cls, singleton_key a) = None.
Proof.
  unfold call.
  destruct (instances st !! (cls, singleton_key a)) as [r'|] eqn:Hc; [done|].
  destruct (init cls a) as [e'|]; [|done]. by intros [= <- <-].
Qed.

End Call.

(** X9.  An instance stays.  Once a call of a class with some queue name has
    returned an instance, then after any further calls, of any classes with
    any arguments, whether they return or raise, a call of that class with
    that name returns the same instance, whatever its other arguments, and
    creates nothing.  A call whose constructor raises registers nothing:
    the registry is as before and the key is still free. *)
Theorem singleton_instance_is_kept (init : queue_class → call_args → option exn)
    (cls : queue_class) (a : call_args) (st : registry) :
  (∀ r st1 calls a',
     call init cls a st = (Returned r, st1) →
     singleton_key a' = singleton_key a →
     call init cls a' (run_calls init calls st1)
     = (Returned r, run_calls init calls st1))
  ∧ (∀ e st1,
       call init cls a st = (Raised e, st1) →
       st1 = st ∧ instances st1 !! (cls, singleton_key a) = None).
Proof.
  split.
  - intros r st1 calls a' Hcall Hkey. apply call_registered. rewrite Hkey.
    apply run_calls_keeps. by eapply call_registers.
  - intros e st1 Hcall.
    destruct (call_raised _ _ _ _ _ _ Hcall) as (-> & _ & Hfree). done.
Qed.

End SingletonStability.

Module QueueFactoryProofs.
Import PyStr PyExn Singleton QueueFactory SingletonProofs SingletonStability.

Section Factory.

Variable QUEUE_CLASSES : gmap (list N) queue_class.
Variable REDIS_QUEUE_URL : option (list N).
Variable init : queue_class → call_args → option exn.

(** A call of [get_queue] that goes through is a call of the class found in
    the table, with the name of the queue as its key. *)
Lemma get_queue_is_call (queue_name queue_type : list N) (st st1 : registry)
    (r : nat) :
  get_queue QUEUE_CLASSES REDIS_QUEUE_URL init queue_name queue_type st
    = (Returned r, st1) →
  ∃ cls a, QUEUE_CLASSES !! queue_type = Some cls
           ∧ singleton_key a = queue_name
           ∧ call init cls a st = (Returned r, st1)
           ∧ ∀ st', get_queue QUEUE_CLASSES REDIS_QUEUE_URL init
                      queue_name queue_type st' = call init cls a st'.
Proof.
  unfold get_queue.
  destruct (QUEUE_CLASSES !! queue_type) as [cls|]; [|done].
  case_bool_decide.
  - destruct REDIS_QUEUE_URL as [[|c u]|]; [done | | done].
    intros Hcall. eexists cls, _. split_and!; [done | | exact Hcall | done].
    unfold singleton_key. cbn [args kwargs]. by rewrite lookup_insert_eq.
  - intros Hcall. eexists cls, _. split_and!; [done | | exact Hcall | done].
    unfold singleton_key. cbn [args kwargs]. by rewrite lookup_singleton_eq.
Qed.

Lemma get_queue_raised (queue_name queue_type : list N) (st st1 : registry)
    (e : exn) :
  get_queue QUEUE_CLASSES REDIS_QUEUE_URL init queue_name queue_type st
    = (Raised e, st1) →
  st1 = st.
Proof.
  unfold get_queue.
  destruct (QUEUE_CLASSES !! queue_type) as [cls|]; [|by intros [= _ <-]].
  case_bool_decide.
  - destruct REDIS_QUEUE_URL as [[|c u]|]; [by intros [= _ <-] | | by intros [= _ <-]].
    by intros (-> & _)%call_raised.
  - by intros (-> & _)%call_raised.
Qed.

End Factory.

(** X10.  [get_queue], for every table of queue classes and every value of
    the environment variable.  A type that is not in the table raises
    [ValueError]; the type redis with the variable unset or empty raises
    [ValueError] before any class is called; whenever [get_queue] raises,
    no queue was registered.  When it returns a queue, asking again for the
    same name and type returns the same queue, whatever queues were
    constructed in between. *)
Theorem get_queue_selects (QUEUE_CLASSES : gmap (list N) queue_class)
    (REDIS_QUEUE_URL : option (list N))
    (init : queue_class → call_args → option exn)
    (queue_name queue_type : list N) (st : registry) :
  (QUEUE_CLASSES !! queue_type = None →
   get_queue QUEUE_CLASSES REDIS_QUEUE_URL init queue_name queue_type st
   = (Raised (Exception ValueError (py "Unsupported queue type: " ++ queue_type)),
      st))
  ∧ (∀ cls, QUEUE_CLASSES !! queue_type = Some cls →
       queue_type = py "redis" →
       REDIS_QUEUE_URL = None ∨ REDIS_QUEUE_URL = Some [] →
       get_queue QUEUE_CLASSES REDIS_QUEUE_URL init queue_name queue_type st
       = (Raised (Exception ValueError
                    (py "REDIS_QUEUE_URL environment variable not set")), st))
  ∧ (∀ e st1,
       get_queue QUEUE_CLASSES REDIS_QUEUE_URL init queue_name queue_type st
         = (Raised e, st1) →
       st1 = st)
  ∧ (∀ r st1 calls,
       get_queue QUEUE_CLASSES REDIS_QUEUE_URL init queue_name queue_type st
         = (Returned r, st1) →
       get_queue QUEUE_CLASSES REDIS_QUEUE_URL init queue_name queue_type
         (run_calls init calls st1)
       = (Returned r, run_calls init calls st1)).
Proof.
  split_and!.
  - intros Hno. unfold get_queue. by rewrite Hno.
  - intros cls Hcls -> Hurl. unfold get_queue. rewrite Hcls.
    rewrite bool_decide_eq_true_2 by done. by destruct Hurl as [-> | ->].
  - intros e st1. apply get_queue_raised.
  - intros r st1 calls Hget.
    destruct (get_queue_is_call _ _ _ _ _ _ _ _ Hget)
      as (cls & a & _ & Hkey & Hcall & Hsame).
    rewrite Hsame. apply call_registered, run_calls_keeps.
    by eapply call_registers.
Qed.

(** With the list and the Redis classes in the table and no URL in the
    environment: an unknown type and the type redis raise, and the queue
    named llm-queue of type list is the same object before and after
    another queue was made. *)
Lemma get_queue_selects_witness :
  get_queue {[ py "list" := ListQueue; py "redis" := RedisQueue ]} None
    (λ _ _, None) (py "llm-queue") (py "kafka") empty_registry
  = (Raised (Exception ValueError (py "Unsupported queue type: kafka")),
     empty_registry)
  ∧ get_queue {[ py "list" := ListQueue; py "redis" := RedisQueue ]} None
      (λ _ _, None) (py "llm-queue") (py "redis") empty_registry
    = (Raised (Exception ValueError
                 (py "REDIS_QUEUE_URL environment variable not set")),
       empty_registry)
  ∧ (get_queue {[ py "list" := ListQueue; py "redis" := RedisQueue ]} None
       (λ _ _, None) (py "llm-queue") (py "list")
       (run_calls (λ _ _, None)
          [(ListQueue, {| args := [py "other"]; kwargs := ∅ |})]
          (get_queue {[ py "list" := ListQueue; py "redis" := RedisQueue ]} None
             (λ _ _, None) (py "llm-queue") (py "list") empty_registry).2)).1
    = Returned 0.
Proof.
  destruct (get_queue_selects
              {[ py "list" := ListQueue; py "redis" := RedisQueue ]} None
              (λ _ _, None) (py "llm-queue") (py "kafka") empty_registry)
    as (Hunknown & _).
  destruct (get_queue_selects
              {[ py "list" := ListQueue; py "redis" := RedisQueue ]} None
              (λ _ _, None) (py "llm-queue") (py "redis") empty_registry)
    as (_ & Hurl & _).
  destruct (get_queue_selects
              {[ py "list" := ListQueue; py "redis" := RedisQueue ]} None
              (λ _ _, None) (py "llm-queue") (py "list") empty_registry)
    as (_ & _ & _ & Hsame).
  split_and!.
  - apply Hunknown. reflexivity.
  - apply (Hurl RedisQueue); [reflexivity | reflexivity | by left].
  - rewrite (Hsame 0 _ [(ListQueue, {| args := [py "other"]; kwargs := ∅ |})]);
      reflexivity.
Defined.

End QueueFactoryProofs.

Module ProviderOutcomes.
Import PyStr PyExn Effects Provider PyStrProofs SummarizerProofs.

(** *** [str.split] on one code point *)

Lemma split_nonempty (sep : N) (s : list N) : split sep s ≠ [].
Proof.
  destruct s as [|c r]; [done|]. simpl.
  destruct (c =? sep)%N; [done|]. by destruct (split sep r).
Qed.

Lemma split_cons_ne (sep c : N) (r : list N) :
  c ≠ sep →
  ∃ piece pieces, split sep r = piece :: pieces
                  ∧ split sep (c :: r) = (c :: piece) :: pieces.
Proof.
  intros Hc. simpl. apply N.eqb_neq in Hc. rewrite Hc.
  pose proof (split_nonempty sep r) as Hne.
  destruct (split sep r) as [|piece pieces]; [done|]. by exists piece, pieces.
Qed.

Lemma split_app_sep (sep : N) (a b : list N) :
  split sep (a ++ sep :: b) = split sep a ++ split sep b.
Proof.
  induction a as [|c a IH].
  - simpl. by rewrite N.eqb_refl.
  - destruct (decide (c = sep)) as [->|Hc].
    + simpl. rewrite N.eqb_refl. by rewrite IH.
    + destruct (split_cons_ne sep c a Hc) as (piece & pieces & Ha & Hca).
      rewrite Hca.
      destruct (split_cons_ne sep c (a ++ sep :: b) Hc)
        as (piece' & pieces' & Hab & Hcab).
      change ((c :: a) ++ sep :: b) with (c :: (a ++ sep :: b)).
      rewrite Hcab. rewrite IH, Ha in Hab. simpl in Hab.
      by injection Hab as <- <-.
Qed.

Lemma split_no_sep (sep : N) (s : list N) : sep ∉ s → split sep s = [s].
Proof.
  induction s as [|c s IH]; [done|].
  intros [Hc Hs]%not_elem_of_cons.
  destruct (split_cons_ne sep c s) as (piece & pieces & Hp & Hcs); [done|].
  rewrite Hcs. rewrite (IH Hs) in Hp. by injection Hp as <- <-.
Qed.

Lemma split_pieces_no_sep (sep : N) (s : list N) :
  Forall (λ piece, sep ∉ piece) (split sep s).
Proof.
  induction s as [|c s IH].
  - repeat constructor. set_solver.
  - destruct (decide (c = sep)) as [->|Hc].
    + simpl. rewrite N.eqb_refl. constructor; [set_solver | done].
    + destruct (split_cons_ne sep c s Hc) as (piece & pieces & Hp & Hcs).
      rewrite Hcs. rewrite Hp in IH. inversion IH as [|? ? H1 H2]; subst.
      constructor; [|done]. apply not_elem_of_cons. split; [congruence | done].
Qed.



Section BaseLLMProvider.

Variable lower : list N → list N.
Variable self_client : client.



(** *** The body of [call], case by case *)



(** *** The decorators *)




End BaseLLMProvider.





End ProviderOutcomes.

Module DispatchProofs.
Import PyStr PyExn Json Structures Effects Dispatch ProviderOutcomes.

Lemma join_cons_cons (sep piece piece' : list N) (rest : list (list N)) :
  join sep (piece :: piece' :: rest) = piece ++ sep ++ join sep (piece' :: rest).
Proof. done. Qed.

(** Joining the pieces of a split gives the string back. *)
Lemma join_split (sep : N) (s : list N) : join [sep] (Provider.split sep s) = s.
Proof.
  induction s as [|c s IH]; [done|].
  destruct (decide (c = sep)) as [->|Hc].
  - simpl Provider.split. rewrite N.eqb_refl.
    pose proof (split_nonempty sep s) as Hne.
    destruct (Provider.split sep s) as [|piece pieces]; [done|].
    rewrite join_cons_cons, IH. done.
  - destruct (split_cons_ne sep c s Hc) as (piece & pieces & Hp & Hcs).
    rewrite Hcs. rewrite Hp in IH. rewrite <- IH.
    destruct pieces as [|piece' pieces]; [done|].
    by rewrite !join_cons_cons.
Qed.

(** Splitting the join of pieces free of the separator gives the pieces. *)
Lemma split_join (sep : N) (pieces : list (list N)) :
  pieces ≠ [] → Forall (λ piece, sep ∉ piece) pieces →
  Provider.split sep (join [sep] pieces) = pieces.
Proof.
  induction pieces as [|piece pieces IH]; [done|]. intros _ Hall.
  inversion Hall as [|? ? Hpiece Hrest]; subst.
  destruct pieces as [|piece' pieces].
  - by apply split_no_sep.
  - rewrite join_cons_cons.
    change (piece ++ [sep] ++ join [sep] (piece' :: pieces))
      with (piece ++ sep :: join [sep] (piece' :: pieces)).
    rewrite split_app_sep, (split_no_sep sep piece Hpiece), IH by done. done.
Qed.

Section Slack.

Context {response : Type}.
Variable json_dumps : json → list N.
Variable requests_post : list N → list N → result response.
Variable webhook_url : option (list N).


End Slack.

(** X13.  The quotation of the summary in a Slack message.  The lines of
    the quoted summary are the lines of the summary, each after a [>]: no
    line is lost, merged or cut, whatever the summary holds; and joining
    the lines of a text with newlines gives the text back. *)
Theorem summary_blockquote_lines (summary : list N) :
  Provider.split 10 (summary_blockquote summary)
  = (λ line, py ">" ++ line) <$> Provider.split 10 summary
  ∧ join [10%N] (Provider.split 10 summary) = summary.
Proof.
  split; [|apply join_split]. unfold summary_blockquote.
  apply split_join.
  - pose proof (split_nonempty 10 summary) as Hne.
    by destruct (Provider.split 10 summary).
  - apply Forall_fmap. eapply Forall_impl; [apply split_pieces_no_sep|].
    intros piece Hpiece. cbn. apply not_elem_of_cons. by split.
Qed.



End DispatchProofs.

Module ScraperItemsProofs.
Import PyStr PyExn Structures Effects ScraperItems.



Section Items.

Context {post : Type}.
Variable class_name scraper_name : list N.
Variable _get_single_post : post → result News.
Variable now : nat → list N.


End Items.


End ScraperItemsProofs.

Module ScraperLimit.
Import PyStr PyExn Structures Effects Scraper ScraperProofs.

Lemma kept_length (k : Z) (l : list News) :
  (0 ≤ k)%Z → length (kept (Some k) l) ≤ Z.to_nat k.
Proof.
  intros Hk. unfold kept, slice_to.
  rewrite (proj2 (Z.leb_le 0 k) Hk), length_take. lia.
Qed.

Lemma concat_kept_length {kwargs : Type} (k : Z) (kw : kwargs)
    (scrapers : list (@scraper kwargs)) :
  (0 ≤ k)%Z →
  length (concat ((λ s, kept (Some k) (results kw s)) <$> scrapers))
  ≤ length scrapers * Z.to_nat k.
Proof.
  intros Hk. induction scrapers as [|s rest IH]; [done|].
  rewrite fmap_cons, concat_cons, length_app.
  pose proof (kept_length k (results kw s) Hk). cbn [length]. lia.
Qed.

(** X16.  The limit of [ScraperFactory.scrape] is a limit for each scraper,
    not for the run.  For a limit [k] that is not negative, the run returns
    at most [k] records for each scraper, so at most [k] times the number
    of scrapers in all; the queue grows by exactly the records returned;
    and with the limit zero the run returns nothing and leaves the queue
    as it was. *)
Theorem scrape_limit_is_per_scraper {kwargs : Type} (verbose : kwargs → bool)
    (model_dump_json : News → list N) (scrapers : list (@scraper kwargs))
    (k : Z) (kw : kwargs) (w : world) :
  (0 ≤ k)%Z →
  ∃ news_list w',
    ScraperFactory_scrape verbose model_dump_json scrapers (Some k) kw w
    = (Returned news_list, w')
    ∧ news_list = concat ((λ s, take (Z.to_nat k) (results kw s)) <$> scrapers)
    ∧ length news_list ≤ length scrapers * Z.to_nat k
    ∧ Queue.queue (queue w')
      = Queue.queue (queue w) ++ (model_dump_json <$> news_list)
    ∧ (k = 0%Z → news_list = [] ∧ queue w' = queue w).
Proof.
  intros Hk.
  destruct (ScraperFactory_scrape_spec verbose model_dump_json scrapers
              (Some k) kw w) as (l' & Hrun & _).
  eexists _, _. split; [exact Hrun|].
  assert (Htake : (λ s : scraper, kept (Some k) (results kw s))
                  = (λ s, take (Z.to_nat k) (results kw s))).
  { unfold kept, slice_to. by rewrite (proj2 (Z.leb_le 0 k) Hk). }
  split_and!.
  - by rewrite Htake.
  - by apply concat_kept_length.
  - done.
  - intros ->. rewrite Htake. cbn [queue].
    assert (Hnil : concat ((λ s : scraper, take (Z.to_nat 0) (results kw s))
                             <$> scrapers) = []).
    { clear. induction scrapers as [|s rest IH]; [done|].
      by rewrite fmap_cons, concat_cons, IH. }
    rewrite Hnil. split; [done|]. cbn. rewrite app_nil_r.
    by destruct (queue w).
Qed.

(** Two scrapers of two records each, with the limit one: two records. *)
Lemma scrape_limit_is_per_scraper_witness :
  (ScraperFactory_scrape (λ _ : unit, true) (λ n, id n)
     [working_scraper; working_scraper] (Some 1%Z) tt
     {| log := []; queue := Queue.ListQueue_init (py "llm-queue") |}).1
  = Returned [news (py "1") (py "HackerNews") (py "one");
              news (py "1") (py "HackerNews") (py "one")].
Proof.
  destruct (scrape_limit_is_per_scraper (λ _ : unit, true) (λ n, id n)
              [working_scraper; working_scraper] 1%Z tt
              {| log := []; queue := Queue.ListQueue_init (py "llm-queue") |})
    as (news_list & w' & Hrun & Hlist & _); [lia|].
  rewrite Hrun, Hlist. reflexivity.
Defined.

End ScraperLimit.

Module StructuresLaws.
Import PyStr Json Structures StructuresProofs.

(** X17.  [News.__eq__] is an equivalence: every record equals itself, and
    the comparison is symmetric and transitive, as sets and dictionaries
    of records take for granted. *)
Theorem News_eq_equivalence :
  (∀ a, News_eq a a = true)
  ∧ (∀ a b, News_eq a b = News_eq b a)
  ∧ (∀ a b c, News_eq a b = true → News_eq b c = true → News_eq a c = true).
Proof.
  split_and!.
  - intros a. by apply News_eq_spec.
  - intros a b. apply eq_true_iff_eq. rewrite !News_eq_spec.
    split; intros [-> ->]; done.
  - intros a b c [H1 H2]%News_eq_spec [H3 H4]%News_eq_spec.
    apply News_eq_spec. by rewrite H1, H2.
Qed.

End StructuresLaws.

Module ScraperQueue.
Import PyStr PyExn Structures Effects Scraper ScraperProofs.

(** X18.  From the scrapers to the consumers of the queue.  After a run of
    [ScraperFactory.scrape], whatever the scrapers do, the queue holds what
    it held before followed by the dump of every record the run returned,
    and [dequeue_generator] hands these out in that order, one for each
    record, the records of the first scraper first, and stops with the
    queue empty. *)
Theorem scraped_news_reaches_the_queue {kwargs : Type} (verbose : kwargs → bool)
    (model_dump_json : News → list N) (scrapers : list (@scraper kwargs))
    (limit : option Z) (kw : kwargs) (w : world) :
  ∃ news_list w',
    ScraperFactory_scrape verbose model_dump_json scrapers limit kw w
    = (Returned news_list, w')
    ∧ Queue.size (queue w') = Queue.size (queue w) + length news_list
    ∧ ∀ fuel, Queue.size (queue w) + length news_list < fuel →
        Queue.drain Queue.dequeue_generator_next fuel (queue w')
        = Some (Some <$> (Queue.queue (queue w) ++ (model_dump_json <$> news_list)),
                Queue.ListQueue_init (Queue.queue_name (queue w))).
Proof.
  destruct (ScraperFactory_scrape_spec verbose model_dump_json scrapers
              limit kw w) as (l' & Hrun & _).
  eexists _, _. split; [exact Hrun|]. cbn [queue]. split.
  - unfold Queue.size. cbn. by rewrite length_app, length_fmap.
  - intros fuel Hfuel. apply QueueProofs.drain_list.
    unfold Queue.size in Hfuel. by rewrite length_app, length_fmap.
Qed.

End ScraperQueue.
